(** * Query pipeline of the settlement list viewer

    A shallow embedding of the in-memory query pipeline of the
    application: the Turkish text normaliser ([src/utils/textUtils.ts]),
    the search, column-filter, facet and page-slice computations of
    [App] ([src/App.tsx]) and the page control
    ([components/Pagination]).

    JavaScript strings are sequences of UTF-16 code units; they are
    modelled as lists of integers.  Arrays are lists.  The components'
    state is a record, and the user's actions are the events of a step
    function.  What belongs to the JavaScript engine and not to the
    repository (the Unicode character data behind
    [toLocaleLowerCase], the collation behind [localeCompare]) is a
    parameter. *)

From Stdlib Require Import ZArith QArith Qround Lia Floats.
From stdpp Require Import base decidable list numbers sorting.

Set Warnings "-register-all".

Local Open Scope Z_scope.

(** ** JavaScript strings *)

Definition jsstring := list Z.

(** [!text] for a string: only the empty string is falsy. *)
Definition falsy (text : jsstring) : bool :=
  match text with [] => true | _ => false end.

(** [a === b] on strings. *)
Definition strict_eq (a b : jsstring) : bool := bool_decide (a = b).

(** [s.startsWith(q)], the position test inside [includes]. *)
Fixpoint startsWith (s q : jsstring) {struct q} : bool :=
  match q, s with
  | [], _ => true
  | _ :: _, [] => false
  | y :: q', x :: s' => (x =? y) && startsWith s' q'
  end.

(** [s.includes(q)]: [q] occurs in [s] at some position. *)
Fixpoint includes (s q : jsstring) : bool :=
  startsWith s q ||
  match s with
  | [] => false
  | _ :: s' => includes s' q
  end.

(** The mathematical notion: [q] is a substring of [s]. *)
Definition Substring (q s : jsstring) : Prop :=
  ∃ pre post, s = pre ++ q ++ post.

(** [s.replace(/c/g, r)] for a one-code-unit pattern and replacement. *)
Definition replace_g (c r : Z) (s : jsstring) : jsstring :=
  map (λ x, if x =? c then r else x) s.

(** ** Code units of the letters involved *)

Module U.
Definition I_cap : Z := 0x49.        (* I *)
Definition i_small : Z := 0x69.      (* i *)
Definition I_dot : Z := 0x130.       (* İ *)
Definition i_dotless : Z := 0x131.   (* ı *)
Definition dot_above : Z := 0x307.   (* combining dot above *)
Definition G_breve : Z := 0x11E.     (* Ğ *)
Definition g_breve : Z := 0x11F.     (* ğ *)
Definition U_uml : Z := 0xDC.        (* Ü *)
Definition u_uml : Z := 0xFC.        (* ü *)
Definition S_ced : Z := 0x15E.       (* Ş *)
Definition s_ced : Z := 0x15F.       (* ş *)
Definition O_uml : Z := 0xD6.        (* Ö *)
Definition o_uml : Z := 0xF6.        (* ö *)
Definition C_ced : Z := 0xC7.        (* Ç *)
Definition c_ced : Z := 0xE7.        (* ç *)
Definition g : Z := 0x67.
Definition u : Z := 0x75.
Definition s : Z := 0x73.
Definition o : Z := 0x6F.
Definition c : Z := 0x63.
Definition Sigma : Z := 0x3A3.       (* Σ *)
Definition sigma : Z := 0x3C3.       (* σ *)
Definition final_sigma : Z := 0x3C2. (* ς *)
End U.

(** ** The character data of the runtime *)

Definition between (lo hi c : Z) : bool := (lo <=? c) && (c <=? hi).

(** The lower-case mapping of the code points U+0000 to U+017F (Basic
    Latin, Latin-1 Supplement, Latin Extended-A), as the Unicode
    character database gives it. *)
Definition simpleLower (c : Z) : Z :=
  if between 0x41 0x5A c then c + 32
  else if between 0xC0 0xDE c && negb (c =? 0xD7) then c + 32
  else if c =? 0x130 then 0x69
  else if between 0x100 0x137 c then (if Z.even c then c + 1 else c)
  else if between 0x139 0x148 c then (if Z.odd c then c + 1 else c)
  else if between 0x14A 0x177 c then (if Z.even c then c + 1 else c)
  else if c =? 0x178 then 0xFF
  else if between 0x179 0x17E c then (if Z.odd c then c + 1 else c)
  else c.

(** The character data of the runtime that lower-casing reads: they
    belong to the JavaScript engine, not to the repository, and are a
    parameter of the development. *)
Record UnicodeData := mkUnicodeData {
  (** Simple_Lowercase_Mapping: the code point itself where there is none *)
  lowercaseOf : Z → Z;
  (** canonical combining class other than 0 and 230 *)
  otherAccentOf : Z → bool;
  (** the property Cased *)
  casedOf : Z → bool;
  (** the property Case_Ignorable *)
  caseIgnorableOf : Z → bool
}.

Definition isLeadSurrogate (c : Z) : bool := between 0xD800 0xDBFF c.
Definition isTrailSurrogate (c : Z) : bool := between 0xDC00 0xDFFF c.
Definition isSurrogate (c : Z) : bool := between 0xD800 0xDFFF c.

(** [StringToCodePoints]: a lead surrogate followed by a trail surrogate
    is one code point; any other code unit, an unpaired surrogate
    included, is the code point of its value. *)
Fixpoint StringToCodePoints (s : jsstring) : list Z :=
  match s with
  | [] => []
  | first :: rest =>
      match rest with
      | second :: rest' =>
          if isLeadSurrogate first && isTrailSurrogate second
          then (first - 0xD800) * 0x400 + (second - 0xDC00) + 0x10000
                 :: StringToCodePoints rest'
          else first :: StringToCodePoints rest
      | [] => [first]
      end
  end.

(** [UTF16EncodeCodePoint] and [CodePointsToString]. *)
Definition UTF16EncodeCodePoint (cp : Z) : jsstring :=
  if between 0x10000 0x10FFFF cp
  then [(cp - 0x10000) / 0x400 + 0xD800; (cp - 0x10000) mod 0x400 + 0xDC00]
  else [cp].

Definition CodePointsToString (cps : list Z) : jsstring :=
  concat (map UTF16EncodeCodePoint cps).

(** What the development assumes of the character data; each line is a
    fact of the Unicode character database. *)
Record UnicodeFacts (T : UnicodeData) : Prop := {
  (** on U+0000..U+017F the mapping is the table above *)
  lower_latin : ∀ c, 0 ≤ c ≤ 0x17F → lowercaseOf T c = simpleLower c;
  (** the lower-case form of a code point has no lower-case form of its own *)
  lower_image_fixed : ∀ c, lowercaseOf T (lowercaseOf T c) = lowercaseOf T c;
  (** capital sigma becomes small sigma; final sigma is a small letter *)
  lower_Sigma : lowercaseOf T U.Sigma = U.sigma;
  lower_final_sigma : lowercaseOf T U.final_sigma = U.final_sigma;
  (** surrogate code points have no case mapping and combining class 0,
      and no code point is mapped to one *)
  surrogate_plain :
    ∀ c, isSurrogate c = true → lowercaseOf T c = c ∧ otherAccentOf T c = false;
  surrogate_image :
    ∀ c, isSurrogate (lowercaseOf T c) = true → isSurrogate c = true
}.

(** ** A part of the character data

    A table to run the definitions on examples.  It holds the lower-case
    mapping of the Latin code points above and of the Greek and Cyrillic
    capitals, the combining classes of the combining diacritical marks
    and of the Hebrew points, and the case properties of these letters
    and marks.  Elsewhere it maps every code point to itself and gives
    it no property, which the data of a runtime do not; the theorems are
    stated for any character data and do not depend on it. *)

Definition sampleLower (c : Z) : Z :=
  if between 0x391 0x3A1 c || between 0x3A3 0x3AB c then c + 32
  else if between 0x410 0x42F c then c + 32
  else if between 0x400 0x40F c then c + 80
  else simpleLower c.

(** Combining marks of class 230 (above) in the block of combining
    diacritical marks. *)
Definition accentAbove (c : Z) : bool :=
  between 0x300 0x314 c || between 0x33D 0x344 c || (c =? 0x346)
  || between 0x34A 0x34C c || between 0x350 0x352 c || (c =? 0x357)
  || (c =? 0x35B) || between 0x363 0x36F c.

(** Combining marks of a class other than 0 and 230: the other combining
    diacritical marks (U+034F has class 0) and the Hebrew points. *)
Definition sampleOtherAccent (c : Z) : bool :=
  (between 0x300 0x36F c && negb (accentAbove c) && negb (c =? 0x34F))
  || between 0x5B0 0x5BD c.

Definition sampleCased (c : Z) : bool :=
  between 0x41 0x5A c || between 0x61 0x7A c
  || (c =? 0xAA) || (c =? 0xB5) || (c =? 0xBA)
  || (between 0xC0 0x17F c && negb (c =? 0xD7) && negb (c =? 0xF7))
  || between 0x391 0x3A1 c || between 0x3A3 0x3CE c
  || between 0x400 0x45F c.

Definition sampleCaseIgnorable (c : Z) : bool :=
  (c =? 0x27) || (c =? 0x2E) || (c =? 0x3A) || (c =? 0x5E) || (c =? 0x60)
  || (c =? 0xA8) || (c =? 0xAD) || (c =? 0xAF) || (c =? 0xB4) || (c =? 0xB7)
  || (c =? 0xB8) || between 0x300 0x36F c || between 0x5B0 0x5BD c.

Definition sampleUnicode : UnicodeData :=
  {| lowercaseOf := sampleLower;
     otherAccentOf := sampleOtherAccent;
     casedOf := sampleCased;
     caseIgnorableOf := sampleCaseIgnorable |}.

Section Runtime.
Variable T : UnicodeData.

(** ** [String.prototype.toLocaleLowerCase('tr-TR')]

    The method is the runtime's: the lower-casing of the Unicode
    standard, over the code points of the string, with the conditional
    mappings of SpecialCasing for Turkish (İ, I and the combining dot
    above) and the final sigma. *)

(** Before_Dot: a combining dot above follows, with only marks of
    another class than 0 and 230 in between. *)
Fixpoint isFollowedByDotAbove (rest : list Z) : bool :=
  match rest with
  | [] => false
  | c :: rest' =>
      if c =? U.dot_above then true
      else if otherAccentOf T c then isFollowedByDotAbove rest'
      else false
  end.

(** A cased letter follows, after case-ignorable code points only. *)
Fixpoint isFollowedByCasedLetter (rest : list Z) : bool :=
  match rest with
  | [] => false
  | c :: rest' =>
      if caseIgnorableOf T c then isFollowedByCasedLetter rest'
      else casedOf T c
  end.

(** The lower-case form of the code point [c]: [precededByI] holds when
    a capital I precedes with only other accents in between (After_I),
    [precededByCased] when a cased letter precedes with only
    case-ignorable code points in between, and [rest] is what follows. *)
Definition toLowerOne (precededByI precededByCased : bool) (c : Z) (rest : list Z)
    : list Z :=
  if c =? U.I_dot then [U.i_small]
  else if (c =? U.dot_above) && precededByI then []
  else if (c =? U.I_cap) && negb (isFollowedByDotAbove rest) then [U.i_dotless]
  else if (c =? U.Sigma) && negb (isFollowedByCasedLetter rest) && precededByCased
  then [U.final_sigma]
  else [lowercaseOf T c].

Fixpoint toLowerTr (precededByI precededByCased : bool) (cps : list Z) : list Z :=
  match cps with
  | [] => []
  | c :: rest =>
      toLowerOne precededByI precededByCased c rest ++
      toLowerTr ((c =? U.I_cap) || (otherAccentOf T c && precededByI))
                (if caseIgnorableOf T c then precededByCased else casedOf T c)
                rest
  end.

Definition toLocaleLowerCase_tr (text : jsstring) : jsstring :=
  CodePointsToString (toLowerTr false false (StringToCodePoints text)).

(** ** [normalizeTurkish]  (src/utils/textUtils.ts) *)

Definition normalizeTurkish (text : jsstring) : jsstring :=
  if falsy text then []
  else
    let normalized := toLocaleLowerCase_tr text in
    let normalized :=
      replace_g U.c_ced U.c
        (replace_g U.o_uml U.o
          (replace_g U.i_dotless U.i_small
            (replace_g U.s_ced U.s
              (replace_g U.u_uml U.u
                (replace_g U.g_breve U.g normalized))))) in
    normalized.

(** The folding table as the specification words it, one code unit at a
    time: İ/I/ı/i to i, Ü/ü to u, Ö/ö to o, Ç/ç to c, Ğ/ğ to g,
    Ş/ş to s; any other code unit is kept. *)
Definition foldTable : list (Z * Z) :=
  [ (U.I_dot, U.i_small); (U.I_cap, U.i_small);
    (U.i_dotless, U.i_small); (U.i_small, U.i_small);
    (U.U_uml, U.u); (U.u_uml, U.u);
    (U.O_uml, U.o); (U.o_uml, U.o);
    (U.C_ced, U.c); (U.c_ced, U.c);
    (U.G_breve, U.g); (U.g_breve, U.g);
    (U.S_ced, U.s); (U.s_ced, U.s) ].

Fixpoint assoc (tbl : list (Z * Z)) (x : Z) : option Z :=
  match tbl with
  | [] => None
  | (k, v) :: tbl' => if x =? k then Some v else assoc tbl' x
  end.

Definition foldLetter (x : Z) : Z := default x (assoc foldTable x).

Definition str_Istanbul_dotted : jsstring :=     (* "İstanbul" *)
  [0x130; 0x73; 0x74; 0x61; 0x6E; 0x62; 0x75; 0x6C].
Definition str_istanbul : jsstring :=            (* "istanbul" *)
  [0x69; 0x73; 0x74; 0x61; 0x6E; 0x62; 0x75; 0x6C].
Definition str_ISTANBUL_dotted : jsstring :=     (* "İSTANBUL" *)
  [0x130; 0x53; 0x54; 0x41; 0x4E; 0x42; 0x55; 0x4C].

(** The six replacements, on one code unit. *)
Definition foldCode (x : Z) : Z :=
  let r (c r x : Z) := if x =? c then r else x in
  r U.c_ced U.c (r U.o_uml U.o (r U.i_dotless U.i_small
    (r U.s_ced U.s (r U.u_uml U.u (r U.g_breve U.g x))))).

(** A code unit that the Latin table leaves alone. *)
Definition lowerFixed (c : Z) : Prop := simpleLower c = c.

(** A code point that lower-casing leaves alone. *)
Definition stableCP (c : Z) : Prop := lowercaseOf T c = c.

(** No unpaired lead surrogate stands right before an unpaired trail
    surrogate: the code points are those of the string they encode. *)
Fixpoint noSplitPair (cps : list Z) : Prop :=
  match cps with
  | [] => True
  | a :: rest =>
      match rest with
      | b :: _ => isLeadSurrogate a && isTrailSurrogate b = false
      | [] => True
      end ∧ noSplitPair rest
  end.

(** The lower-case form of a code point of U+0000..U+017F in Turkish,
    when no combining dot follows. *)
Definition latinLowerTr (c : Z) : Z :=
  if c =? U.I_dot then U.i_small
  else if c =? U.I_cap then U.i_dotless
  else simpleLower c.

(** ** Records and filters  (src/types.ts, src/App.tsx) *)

Record YerlesimYeri := mkYerlesimYeri {
  il : jsstring;
  ilce : jsstring;
  belediye : jsstring;
  mahalle : jsstring;
  durum : jsstring
}.

(** [keyof YerlesimYeri]. *)
Inductive Key := K_il | K_ilce | K_belediye | K_mahalle | K_durum.

Global Instance Key_eq_dec : EqDecision Key.
Proof. solve_decision. Defined.

Definition allKeys : list Key := [K_il; K_ilce; K_belediye; K_mahalle; K_durum].

(** [item[k]]. *)
Definition field (k : Key) (item : YerlesimYeri) : jsstring :=
  match k with
  | K_il => il item
  | K_ilce => ilce item
  | K_belediye => belediye item
  | K_mahalle => mahalle item
  | K_durum => durum item
  end.

(** The filter state has the five keys of a record, each a string: the
    same structural type. *)
Definition Filters := YerlesimYeri.

(** The initial filter state of [useState]. *)
Definition noFilters : Filters := mkYerlesimYeri [] [] [] [] [].

(** [{ ...prev, [key]: value }]. *)
Definition setField (key : Key) (value : jsstring) (prev : Filters) : Filters :=
  match key with
  | K_il => mkYerlesimYeri value (ilce prev) (belediye prev) (mahalle prev) (durum prev)
  | K_ilce => mkYerlesimYeri (il prev) value (belediye prev) (mahalle prev) (durum prev)
  | K_belediye => mkYerlesimYeri (il prev) (ilce prev) value (mahalle prev) (durum prev)
  | K_mahalle => mkYerlesimYeri (il prev) (ilce prev) (belediye prev) value (durum prev)
  | K_durum => mkYerlesimYeri (il prev) (ilce prev) (belediye prev) (mahalle prev) value
  end.

(** ** The search stage: [searchedData] *)

Definition searchedData (yerlesimVerileri : list YerlesimYeri)
    (deferredSearchTerm : jsstring) : list YerlesimYeri :=
  if falsy deferredSearchTerm then yerlesimVerileri
  else
    let normalizedQuery := normalizeTurkish deferredSearchTerm in
    filter (λ item,
      includes (normalizeTurkish (il item)) normalizedQuery ||
      includes (normalizeTurkish (ilce item)) normalizedQuery ||
      includes (normalizeTurkish (belediye item)) normalizedQuery ||
      includes (normalizeTurkish (mahalle item)) normalizedQuery ||
      includes (normalizeTurkish (durum item)) normalizedQuery)
      yerlesimVerileri.

(** ** The column filters: [filteredData] *)

Definition filteredData (searchedData : list YerlesimYeri)
    (filters : Filters) : list YerlesimYeri :=
  filter (λ item,
    (strict_eq (il filters) [] || strict_eq (il item) (il filters)) &&
    (strict_eq (ilce filters) [] || strict_eq (ilce item) (ilce filters)) &&
    (strict_eq (belediye filters) [] || strict_eq (belediye item) (belediye filters)) &&
    (strict_eq (mahalle filters) [] ||
       includes (normalizeTurkish (mahalle item)) (normalizeTurkish (mahalle filters))) &&
    (strict_eq (durum filters) [] || strict_eq (durum item) (durum filters)))
    searchedData.

(** ** Loading the data: [fetchData]  (src/App.tsx) *)

(** A value as [response.json()] gives it.  Numbers are IEEE doubles.
    An object is the list of its own properties, each key once. *)
Inductive json :=
| JNull
| JBool (b : bool)
| JNumber (x : float)
| JString (s : jsstring)
| JArray (items : list json)
| JObject (props : list (jsstring * json)).

(** The names of the five keys. *)
Definition keyName (k : Key) : jsstring :=
  match k with
  | K_il => [0x69; 0x6C]
  | K_ilce => [0x69; 0x6C; 0x63; 0x65]
  | K_belediye => [0x62; 0x65; 0x6C; 0x65; 0x64; 0x69; 0x79; 0x65]
  | K_mahalle => [0x6D; 0x61; 0x68; 0x61; 0x6C; 0x6C; 0x65]
  | K_durum => [0x64; 0x75; 0x72; 0x75; 0x6D]
  end.

(** Truthiness: [null], [false], [0], [-0], [NaN] and [""] are falsy. *)
Definition truthy (v : json) : bool :=
  match v with
  | JNull => false
  | JBool b => b
  | JNumber x => negb (PrimFloat.is_zero x || PrimFloat.is_nan x)
  | JString s => negb (falsy s)
  | JArray _ | JObject _ => true
  end.

Fixpoint ownProperty (key : jsstring) (props : list (jsstring * json)) : option json :=
  match props with
  | [] => None
  | (k, v) :: rest => if strict_eq k key then Some v else ownProperty key rest
  end.

(** [item.il], [item.ilce], ...: reading one of the five keys off a
    value.  On [null] the access throws (the outer [None]); an object
    gives its own property or [undefined] (the inner [None]); no array,
    string, number or boolean has a property of these names. *)
Definition getField (item : json) (k : Key) : option (option json) :=
  match item with
  | JNull => None
  | JObject props => Some (ownProperty (keyName k) props)
  | _ => Some None
  end.

(** [x || ""]. *)
Definition orEmpty (x : option json) : json :=
  match x with
  | Some v => if truthy v then v else JString []
  | None => JString []
  end.

(** The object literal the sanitisation builds: five fields, typed as
    strings by the annotation but holding what the data held. *)
Record Sanitized := mkSanitized {
  s_il : json;
  s_ilce : json;
  s_belediye : json;
  s_mahalle : json;
  s_durum : json
}.

Definition sfield (k : Key) (rec : Sanitized) : json :=
  match k with
  | K_il => s_il rec
  | K_ilce => s_ilce rec
  | K_belediye => s_belediye rec
  | K_mahalle => s_mahalle rec
  | K_durum => s_durum rec
  end.

(** The callback of [rawData.map]; [None] when it throws. *)
Definition sanitize (item : json) : option Sanitized :=
  match getField item K_il, getField item K_ilce, getField item K_belediye,
        getField item K_mahalle, getField item K_durum with
  | Some a, Some b, Some c, Some d, Some e =>
      Some (mkSanitized (orEmpty a) (orEmpty b) (orEmpty c) (orEmpty d) (orEmpty e))
  | _, _, _, _, _ => None
  end.

(** A well-typed record as the value it is at run time, and as the JSON
    object that holds it in a data file. *)
Definition ofTyped (r : YerlesimYeri) : Sanitized :=
  mkSanitized (JString (il r)) (JString (ilce r)) (JString (belediye r))
    (JString (mahalle r)) (JString (durum r)).

Definition toJson (r : YerlesimYeri) : json :=
  JObject (map (λ k, (keyName k, JString (field k r))) allKeys).

Definition isString (v : json) : Prop := ∃ s, v = JString s.

(** What the fetch of [/data.json] comes to: the request fails, or a
    response arrives, [ok] or not, whose body is JSON or not. *)
Inductive FetchOutcome :=
| FetchFails
| Response (ok : bool) (body : option json).

(** What [fetchData] leaves in the state. *)
Record Loaded := mkLoaded {
  loadedData : list Sanitized;
  usingSampleData : bool;
  stillLoading : bool
}.

Section FetchData.
(** The fallback records of the module [./data]. *)
Variable sampleData : list YerlesimYeri.

(** The [try] block; [None] when it throws. *)
Definition tryLoad (outcome : FetchOutcome) : option (list Sanitized) :=
  match outcome with
  | FetchFails => None
  | Response ok body =>
      if negb ok then None
      else
        match body with
        | None => None
        | Some rawData =>
            match rawData with
            | JArray items => mapM sanitize items
            | _ => None                       (* !Array.isArray(rawData) *)
            end
        end
  end.

Definition fetchData (outcome : FetchOutcome) : Loaded :=
  match tryLoad outcome with
  | Some data => mkLoaded data false false
  | None => mkLoaded (map ofTyped sampleData) true false
  end.
End FetchData.

(** ** Facet options: [getOptions] *)

(** [Object.entries] of a filter object, in the order of its keys. *)
Definition entries (o : Filters) : list (Key * jsstring) :=
  map (λ k, (k, field k o)) allKeys.

(** [delete o[key]], on the entries. *)
Definition delete_key (key : Key) (es : list (Key * jsstring)) : list (Key * jsstring) :=
  filter (λ e, e.1 ≠ key) es.

(** The records that [getOptions] reads are those of the state, whose
    fields hold what the data file held: values of any type. *)

(** [normalizeTurkish(text)] on a value of any type: a falsy value gives
    the empty string; a truthy value that is not a string has no method
    [toLocaleLowerCase], and the call throws ([None]). *)
Definition normalizeTurkish_any (text : json) : option jsstring :=
  if negb (truthy text) then Some []
  else
    match text with
    | JString s => Some (normalizeTurkish s)
    | _ => None
    end.

(** [a === v] for a value [a] and a string [v]. *)
Definition strict_eq_value (a : json) (v : jsstring) : bool :=
  match a with
  | JString s => strict_eq s v
  | _ => false
  end.

(** [typeof val === 'string']. *)
Definition typeof_string (val : json) : bool :=
  match val with
  | JString _ => true
  | _ => false
  end.

(** The string that a value known to be a string is. *)
Definition string_of (val : json) : jsstring :=
  match val with
  | JString s => s
  | _ => []
  end.

(** SameValueZero, the equality of the members of a [Set]: primitives by
    value, with [NaN] equal to itself and [0] to [-0]; arrays and objects
    by identity, and two values read off the data are never the same
    object. *)
Definition SameValueZero (a b : json) : bool :=
  match a, b with
  | JNull, JNull => true
  | JBool x, JBool y => Bool.eqb x y
  | JNumber x, JNumber y =>
      PrimFloat.eqb x y || (PrimFloat.is_nan x && PrimFloat.is_nan y)
  | JString x, JString y => strict_eq x y
  | _, _ => false
  end.

(** [set.add(v)]: a set keeps its members in the order of insertion. *)
Definition Set_add (set : list json) (v : json) : list json :=
  if existsb (SameValueZero v) set then set else set ++ [v].

(** [new Set(values)], as the list [Array.from] gives back. *)
Definition new_Set (values : list json) : list json :=
  fold_left Set_add values [].

(** [arr.every(callback)] and [arr.filter(callback)] for a callback that
    may throw: the elements are visited in order, [every] stops at the
    first [false], and a throw ends the whole call. *)
Fixpoint Array_every {A} (callback : A → option bool) (arr : list A) : option bool :=
  match arr with
  | [] => Some true
  | x :: rest =>
      match callback x with
      | None => None
      | Some false => Some false
      | Some true => Array_every callback rest
      end
  end.

Fixpoint Array_filter {A} (callback : A → option bool) (arr : list A)
    : option (list A) :=
  match arr with
  | [] => Some []
  | x :: rest =>
      match callback x with
      | None => None
      | Some keep =>
          match Array_filter callback rest with
          | None => None
          | Some kept => Some (if keep then x :: kept else kept)
          end
      end
  end.

(** [Array.prototype.sort(comparefn)].  The sort is stable, and for a
    consistent comparator its result is determined: the stably sorted
    array, which insertion from the right computes. *)
Fixpoint sort_insert {A} (comparefn : A → A → Z) (x : A) (sorted : list A) : list A :=
  match sorted with
  | [] => [x]
  | y :: rest =>
      if 0 <? comparefn x y then y :: sort_insert comparefn x rest
      else x :: y :: rest
  end.

Definition Array_sort {A} (comparefn : A → A → Z) (arr : list A) : list A :=
  foldr (sort_insert comparefn) [] arr.

Section Facets.
(** [a.localeCompare(b, 'tr')], the collation of the runtime: negative,
    zero or positive. *)
Variable localeCompare_tr : jsstring → jsstring → Z.

(** The function of the source; [None] when it throws.  The comparator
    is only called on what passed the [typeof] test. *)
Definition getOptions_any (searchedData : list Sanitized) (filters : Filters)
    (key : Key) : option (list json) :=
  let otherFilters := delete_key key (entries filters) in
  match
    Array_filter (λ item,
      Array_every (λ '(k, v),
        if falsy v then Some true
        else if bool_decide (k = K_mahalle) then
          match normalizeTurkish_any (s_mahalle item) with
          | Some text => Some (includes text (normalizeTurkish v))
          | None => None
          end
        else Some (strict_eq_value (sfield k item) v))
        otherFilters)
      searchedData
  with
  | None => None
  | Some dataForOptions =>
      let uniqueValues := new_Set (map (sfield key) dataForOptions) in
      Some
        (Array_sort (λ a b, localeCompare_tr (string_of a) (string_of b))
           (filter (λ val, typeof_string val && negb (strict_eq_value val []))
              uniqueValues))
  end.

(** [getOptions] on records that are typed as the interface says, every
    field a string: nothing throws, and the options are strings. *)
Definition getOptions (searchedData : list YerlesimYeri) (filters : Filters)
    (key : Key) : list jsstring :=
  match getOptions_any (map ofTyped searchedData) filters key with
  | Some options => map string_of options
  | None => []
  end.
End Facets.

(** A consistent comparator to run the facets with: the lexicographic
    order of the code units (alphabetical on strings of the letters a to
    z). *)
Fixpoint codeUnitCompare (a b : jsstring) : Z :=
  match a, b with
  | [], [] => 0
  | [], _ :: _ => -1
  | _ :: _, [] => 1
  | x :: a', y :: b' =>
      if x <? y then -1 else if y <? x then 1 else codeUnitCompare a' b'
  end.

(** ** Pagination  (src/App.tsx) *)

Definition ITEMS_PER_PAGE : Z := 50.

(** [Math.ceil(n / d)] for integers [n] and [d]: the quotient is taken in
    the rationals (the quotient of an array length by 50 is far from the
    precision limit of a double). *)
Definition Math_ceil_div (n d : Z) : Z :=
  Qceiling (Qdiv (inject_Z n) (inject_Z d)).

Definition totalPages (filteredData : list YerlesimYeri) : Z :=
  Math_ceil_div (Z.of_nat (length filteredData)) ITEMS_PER_PAGE.

(** [arr.slice(start, end)], with the relative indices of the language:
    a negative index counts from the end, and both are clamped to the
    array. *)
Definition slice {A} (arr : list A) (start end_ : Z) : list A :=
  let len := Z.of_nat (length arr) in
  let k := if start <? 0 then Z.max (len + start) 0 else Z.min start len in
  let final := if end_ <? 0 then Z.max (len + end_) 0 else Z.min end_ len in
  take (Z.to_nat (final - k)) (drop (Z.to_nat k) arr).

Definition currentData (currentPage : Z) (filteredData : list YerlesimYeri)
    : list YerlesimYeri :=
  let startIndex := (currentPage - 1) * ITEMS_PER_PAGE in
  slice filteredData startIndex (startIndex + ITEMS_PER_PAGE).

(** ** The page control  (components/Pagination) *)

Inductive PageItem := PageNumber (page : Z) | Ellipsis.

(** [for (let i = a; i <= b; i++)]: the values of [i]. *)
Definition for_range (a b : Z) : list Z := seqZ a (b - a + 1).

Definition getPageNumbers (currentPage totalPages : Z) : list PageItem :=
  let maxVisiblePages := 5 in
  if totalPages <=? maxVisiblePages then
    map PageNumber (for_range 1 totalPages)
  else
    let startPage := Z.max 2 (currentPage - 1) in
    let endPage := Z.min (totalPages - 1) (currentPage + 1) in
    let '(startPage, endPage) :=
      if currentPage <=? 3 then (startPage, 4)
      else if totalPages - 2 <=? currentPage then (totalPages - 3, endPage)
      else (startPage, endPage) in
    [PageNumber 1]
    ++ (if 2 <? startPage then [Ellipsis] else [])
    ++ map PageNumber (for_range startPage endPage)
    ++ (if endPage <? totalPages - 1 then [Ellipsis] else [])
    ++ [PageNumber totalPages].

(** A rendered button: whether it is disabled, and the page its click
    hands to [onPageChange]. *)
Record Button := mkButton { disabled : bool; onClick : Z }.

Record PaginationView := mkView {
  prevButton : Button;
  pageItems : list PageItem;
  nextButton : Button
}.

(** The component renders nothing ([null]) when there is at most one
    page. *)
Definition Pagination (currentPage totalPages : Z) : option PaginationView :=
  if totalPages <=? 1 then None
  else Some
    {| prevButton := mkButton (currentPage =? 1) (currentPage - 1);
       pageItems := getPageNumbers currentPage totalPages;
       nextButton := mkButton (currentPage =? totalPages) (currentPage + 1) |}.

(** ** The state of [App] and its transitions *)

Record AppState := mkApp {
  yerlesimVerileri : list YerlesimYeri;
  loading : bool;
  searchTerm : jsstring;
  currentPage : Z;
  filters : Filters
}.

(** The state of the first render. *)
Definition initialState : AppState :=
  {| yerlesimVerileri := []; loading := true; searchTerm := [];
     currentPage := 1; filters := noFilters |}.

(** The values derived at a render once rendering has settled: the
    deferred search term is then the search term. *)
Definition App_searchedData (st : AppState) : list YerlesimYeri :=
  searchedData (yerlesimVerileri st) (searchTerm st).

Definition App_filteredData (st : AppState) : list YerlesimYeri :=
  filteredData (App_searchedData st) (filters st).

Definition App_totalPages (st : AppState) : Z :=
  totalPages (App_filteredData st).

Definition App_currentData (st : AppState) : list YerlesimYeri :=
  currentData (currentPage st) (App_filteredData st).

(** [ilOptions], [ilceOptions], [belediyeOptions] and [durumOptions]:
    the options of a key at a render. *)
Definition App_options (localeCompare_tr : jsstring → jsstring → Z)
    (st : AppState) (key : Key) : list jsstring :=
  getOptions localeCompare_tr (App_searchedData st) (filters st) key.

Definition setYerlesimVerileri (data : list YerlesimYeri) (st : AppState) : AppState :=
  mkApp data (loading st) (searchTerm st) (currentPage st) (filters st).
Definition setLoading (b : bool) (st : AppState) : AppState :=
  mkApp (yerlesimVerileri st) b (searchTerm st) (currentPage st) (filters st).
Definition setSearchTerm (value : jsstring) (st : AppState) : AppState :=
  mkApp (yerlesimVerileri st) (loading st) value (currentPage st) (filters st).
Definition setCurrentPage (page : Z) (st : AppState) : AppState :=
  mkApp (yerlesimVerileri st) (loading st) (searchTerm st) page (filters st).
Definition setFilters (f : Filters) (st : AppState) : AppState :=
  mkApp (yerlesimVerileri st) (loading st) (searchTerm st) (currentPage st) f.

(** What happens to the application: the fetch of the data ends, or the
    user acts on a control. *)
Inductive Event :=
| FetchDone (data : list YerlesimYeri)
| SearchChange (value : jsstring)
| FilterChange (key : Key) (value : jsstring)
| ResetClick
| PrevClick
| NextClick
| PageClick (index : nat).

(** A click on a button of the page control. *)
Definition click (b : Button) (st : AppState) : AppState :=
  if disabled b then st else setCurrentPage (onClick b) st.

(** The handler of an event, in a render whose page control was given
    [totalPages]: the state after its [set...] calls, and whether
    [searchTerm] or [filters], the dependencies of the page-reset effect,
    changed (a new filter object counts as a change). *)
Definition handleWith (totalPages : Z) (ev : Event) (st : AppState)
    : AppState * bool :=
  if loading st then
    (* only the spinner is rendered: no control can be used *)
    match ev with
    | FetchDone data =>
        (setLoading false (setYerlesimVerileri data st), false)
    | _ => (st, false)
    end
  else
    match ev with
    | FetchDone _ => (st, false)          (* the fetch runs once, at mount *)
    | SearchChange value =>
        (setSearchTerm value st, negb (strict_eq value (searchTerm st)))
    | FilterChange key value =>
        (setFilters (setField key value (filters st)) st, true)
    | ResetClick =>
        (setCurrentPage 1 (setFilters noFilters (setSearchTerm [] st)), true)
    | PrevClick =>
        (match Pagination (currentPage st) totalPages with
         | None => st
         | Some view => click (prevButton view) st
         end, false)
    | NextClick =>
        (match Pagination (currentPage st) totalPages with
         | None => st
         | Some view => click (nextButton view) st
         end, false)
    | PageClick index =>
        (match Pagination (currentPage st) totalPages with
         | None => st
         | Some view =>
             match pageItems view !! index with
             | Some (PageNumber page) => setCurrentPage page st
             | _ => st
             end
         end, false)
    end.

(** [useEffect(() => setCurrentPage(1), [searchTerm, filters])]. *)
Definition resetPageEffect (st : AppState) : AppState := setCurrentPage 1 st.

(** *** Settled renders

    An event that meets a settled render: the page control shows the
    pages of the search term itself. *)
Definition handle (ev : Event) (st : AppState) : AppState * bool :=
  handleWith (App_totalPages st) ev st.

Definition step (st : AppState) (ev : Event) : AppState :=
  let '(st', changed) := handle ev st in
  if changed then resetPageEffect st' else st'.

(** *** Renders with the deferred search term

    [useDeferredValue(searchTerm)] lags behind the search term: after a
    keystroke the component first renders with the new search term and
    the old deferred value, the effects of that render run, and the
    deferred value follows in a later render.  Events can fall in
    between. *)
Record Render := mkRender {
  appState : AppState;
  deferredSearchTerm : jsstring
}.

(** At mount the deferred value is the initial search term. *)
Definition initialRender : Render := mkRender initialState [].

(** The values derived at a render: the search reads the deferred
    term. *)
Definition Render_searchedData (r : Render) : list YerlesimYeri :=
  searchedData (yerlesimVerileri (appState r)) (deferredSearchTerm r).

Definition Render_filteredData (r : Render) : list YerlesimYeri :=
  filteredData (Render_searchedData r) (filters (appState r)).

Definition Render_totalPages (r : Render) : Z :=
  totalPages (Render_filteredData r).

Definition Render_currentData (r : Render) : list YerlesimYeri :=
  currentData (currentPage (appState r)) (Render_filteredData r).

(** What leads from a render to the next: an event, handled with what
    the render shows, or the deferred value catching up ([searchTerm] and
    [filters] are then as before, so the page-reset effect does not
    run). *)
Inductive RenderEvent :=
| Act (ev : Event)
| DeferredCommit.

Definition stepRender (r : Render) (rev : RenderEvent) : Render :=
  match rev with
  | Act ev =>
      let '(st', changed) := handleWith (Render_totalPages r) ev (appState r) in
      mkRender (if changed then resetPageEffect st' else st')
        (deferredSearchTerm r)
  | DeferredCommit => mkRender (appState r) (searchTerm (appState r))
  end.

Definition runRender (r : Render) (revs : list RenderEvent) : Render :=
  fold_left stepRender revs r.

(** A settled render of a state. *)
Definition settled (st : AppState) : Render := mkRender st (searchTerm st).


(** A request to the page control. *)
Definition pageRequest (ev : Event) : Prop :=
  match ev with
  | PrevClick | NextClick | PageClick _ => True
  | _ => False
  end.



(** ** The predicates of the specification *)

(** A record matches a query when the normalised query is a substring of
    the normalised form of at least one of its five fields. *)
Definition searchMatch (q : jsstring) (r : YerlesimYeri) : Prop :=
  ∃ k, Substring (normalizeTurkish q) (normalizeTurkish (field k r)).

(** A record satisfies a filter state when every field with a non-empty
    constraint is satisfied: [mahalle] by containment of the normalised
    constraint, the other fields by equality of the raw values. *)
Definition satisfiesField (filters : Filters) (r : YerlesimYeri) (k : Key) : Prop :=
  field k filters ≠ [] →
  match k with
  | K_mahalle =>
      Substring (normalizeTurkish (mahalle filters)) (normalizeTurkish (mahalle r))
  | _ => field k r = field k filters
  end.

Definition satisfies (filters : Filters) (r : YerlesimYeri) : Prop :=
  ∀ k, satisfiesField filters r k.

(** Two filter states constrain disjoint sets of fields. *)
Definition disjointFilters (f1 f2 : Filters) : Prop :=
  ∀ k, field k f1 = [] ∨ field k f2 = [].

(** The union of two filter states: each field takes the constraint that
    one of them sets. *)
Definition unionField (f1 f2 : Filters) (k : Key) : jsstring :=
  if falsy (field k f1) then field k f2 else field k f1.

Definition unionFilters (f1 f2 : Filters) : Filters :=
  {| il := unionField f1 f2 K_il;
     ilce := unionField f1 f2 K_ilce;
     belediye := unionField f1 f2 K_belediye;
     mahalle := unionField f1 f2 K_mahalle;
     durum := unionField f1 f2 K_durum |}.

(** The same for a record of the state, whose fields hold values of any
    type: [mahalle] by containment in the normal form of the value, the
    other fields by identity with the constraint, a string. *)
Definition satisfiesField_any (filters : Filters) (r : Sanitized) (k : Key) : Prop :=
  field k filters ≠ [] →
  match k with
  | K_mahalle =>
      ∃ text, normalizeTurkish_any (s_mahalle r) = Some text ∧
              Substring (normalizeTurkish (mahalle filters)) text
  | _ => sfield k r = JString (field k filters)
  end.

Definition satisfies_any (filters : Filters) (r : Sanitized) : Prop :=
  ∀ k, satisfiesField_any filters r k.

(** ** Further notions used to describe the code *)

(** [item.key], with [undefined] for what cannot be read. *)
Definition readField (item : json) (k : Key) : option json :=
  default None (getField item k).

(** The page numbers among the items of the page control, in order. *)
Definition pageNumbersOf (items : list PageItem) : list Z :=
  omap (λ it, match it with PageNumber page => Some page | Ellipsis => None end)
    items.



(** The pages of a list of records, from the first to the last. *)
Definition allPages (l : list YerlesimYeri) : list (list YerlesimYeri) :=
  map (λ page, currentData page l) (for_range 1 (totalPages l)).

(** ** Sample data *)

Definition str (codes : list Z) : jsstring := codes.

Definition sample_a : YerlesimYeri :=
  mkYerlesimYeri (str [0x61]) (str [0x78]) [] (str [0x6B; 0xF6; 0x79]) (str [0x6B]).
Definition sample_b : YerlesimYeri :=
  mkYerlesimYeri (str [0x62]) (str [0x78]) [] (str [0x4B; 0xD6; 0x59]) (str [0x6B]).
Definition sample_c : YerlesimYeri :=
  mkYerlesimYeri (str [0x63]) (str [0x79]) [] [] (str [0x6D]).

Definition sampleRecords : list YerlesimYeri :=
  [sample_b; sample_a; sample_c; sample_b].

(** 120 records, as in the end-to-end scenario of the specification. *)
Definition sample120 : list YerlesimYeri :=
  replicate 40 sample_a ++ replicate 40 sample_b ++ replicate 40 sample_c.

(** Two items of a data file: a well-typed record, and an object whose
    [il] is the number 5 and whose other keys are missing. *)
Definition sampleItems : list json :=
  [toJson sample_a; JObject [(keyName K_il, JNumber 5%float)]].

(** Records of the state as a data file can leave them: the [il] of the
    second is the number 5, that of the third the value [true], that of
    the fourth an array, and the fifth has none. *)
Definition sampleMixed : list Sanitized :=
  [ofTyped sample_b;
   mkSanitized (JNumber 5%float) (JString (str [0x78])) (JString []) (JString [])
     (JString []);
   mkSanitized (JBool true) (JString (str [0x78])) (JString []) (JString [])
     (JString []);
   mkSanitized (JArray []) (JString (str [0x78])) (JString []) (JString [])
     (JString []);
   mkSanitized (JString []) (JString (str [0x78])) (JString []) (JString [])
     (JString []);
   ofTyped sample_a;
   ofTyped sample_c;
   ofTyped sample_b].

(** The queries "koy" and "KÖY". *)
Definition str_koy : jsstring := str [0x6B; 0x6F; 0x79].
Definition str_KOY_uml : jsstring := str [0x4B; 0xD6; 0x59].

(** The application on page 2 of the 120 records. *)
Definition sampleState : AppState :=
  mkApp sample120 false [] 2 noFilters.


(** * Properties *)

(** ** Strings *)

Lemma startsWith_prefix s q : startsWith s q = true ↔ ∃ post, s = q ++ post.
Proof.
  revert s; induction q as [|y q IH]; intros s; simpl.
  - split; [intros _; by exists s | done].
  - destruct s as [|x s]; simpl.
    + split; [done | intros [post H]; discriminate].
    + rewrite andb_true_iff, Z.eqb_eq, IH. split.
      * intros [-> [post ->]]. by exists post.
      * intros [post H]. injection H as -> ->. eauto.
Qed.

Lemma includes_Substring s q : includes s q = true ↔ Substring q s.
Proof.
  unfold Substring. induction s as [|x s IH].
  - simpl. rewrite orb_false_r, startsWith_prefix. split.
    + intros [post H]. by exists [], post.
    + intros [pre [post H]]. symmetry in H.
      apply app_eq_nil in H as [-> H]. exists post. by rewrite H.
  - cbn [includes]. rewrite orb_true_iff, startsWith_prefix, IH. split.
    + intros [[post H] | [pre [post H]]].
      * by exists [], post.
      * exists (x :: pre), post. by rewrite H.
    + intros [[|y pre] [post H]].
      * left. by exists post.
      * right. injection H as -> ->. by exists pre, post.
Qed.

Global Instance Substring_dec q s : Decision (Substring q s).
Proof.
  destruct (includes s q) eqn:E.
  - left. by apply includes_Substring.
  - right. intros H. apply includes_Substring in H. congruence.
Defined.

Lemma strict_eq_true a b : strict_eq a b = true ↔ a = b.
Proof. unfold strict_eq. apply bool_decide_eq_true. Qed.

(** ** The normaliser *)

Lemma normalizeTurkish_unfold text :
  normalizeTurkish text = map foldCode (toLocaleLowerCase_tr text).
Proof.
  unfold normalizeTurkish. destruct text as [|c text]; [done|].
  cbn [falsy]. unfold replace_g. by rewrite !map_map.
Qed.

Lemma simpleLower_outside c : c < 0x41 ∨ 0x17E < c → simpleLower c = c.
Proof.
  intros H. unfold simpleLower, between.
  repeat match goal with
  | |- context [?a <=? ?b] => destruct (Z.leb_spec a b); simpl
  | |- context [?a =? ?b] => destruct (Z.eqb_spec a b); simpl
  end; try lia; reflexivity.
Qed.

Lemma foldCode_cases x :
  foldCode x = x ∨ foldCode x ∈ [U.g; U.u; U.s; U.i_small; U.o; U.c].
Proof.
  unfold foldCode.
  repeat match goal with
  | |- context [?a =? ?b] => destruct (Z.eqb_spec a b)
  end; subst; try (left; reflexivity); right;
    repeat first [apply list_elem_of_here | apply list_elem_of_further].
Qed.

Lemma foldCode_idem x : foldCode (foldCode x) = foldCode x.
Proof.
  destruct (foldCode_cases x) as [E|H]; [by rewrite !E|].
  repeat (apply elem_of_cons in H as [->|H]; [reflexivity|]).
  by apply elem_of_nil in H.
Qed.

Lemma foldCode_range x : foldCode x = x ∨ 0x61 ≤ foldCode x ≤ 0x7A.
Proof.
  destruct (foldCode_cases x) as [E|H]; [by left|right].
  repeat (apply elem_of_cons in H as [->|H]; [done|]).
  by apply elem_of_nil in H.
Qed.

Lemma foldCode_high x : 0x180 ≤ x → foldCode x = x.
Proof.
  intros H. unfold foldCode.
  repeat match goal with
  | |- context [x =? ?b] => destruct (Z.eqb_spec x b) as [E|_]; [vm_compute in E; lia|]
  end. reflexivity.
Qed.

Lemma foldLetter_table :
  forallb (λ x, implb (simpleLower x =? x) (foldLetter x =? foldCode x))
    (seqZ 0 0x180) = true.
Proof. vm_compute. reflexivity. Qed.

Lemma foldLetter_outside x : x < 0 ∨ 0x180 ≤ x → foldLetter x = foldCode x.
Proof.
  intros H.
  cbv [foldLetter foldTable assoc foldCode default U.I_dot U.I_cap U.i_dotless
       U.i_small U.U_uml U.u_uml U.O_uml U.o_uml U.C_ced U.c_ced U.G_breve
       U.g_breve U.S_ced U.s_ced U.g U.u U.s U.o U.c].
  repeat match goal with
  | |- context [x =? ?b] => destruct (Z.eqb_spec x b)
  end; try reflexivity; lia.
Qed.

Lemma foldLetter_foldCode x : lowerFixed x → foldLetter x = foldCode x.
Proof.
  unfold lowerFixed. intros Hx.
  destruct (decide (0 ≤ x < 0x180)) as [Hr|Hr].
  - pose proof foldLetter_table as Tb. rewrite forallb_forall in Tb.
    specialize (Tb x). rewrite <- list_elem_of_In, elem_of_seqZ in Tb.
    specialize (Tb ltac:(lia)).
    apply Z.eqb_eq in Hx. rewrite Hx in Tb. by apply Z.eqb_eq.
  - apply foldLetter_outside. lia.
Qed.

(** ** Code points and code units *)

Lemma encode_supplementary cp :
  between 0x10000 0x10FFFF cp = true →
  ∃ h l, UTF16EncodeCodePoint cp = [h; l] ∧
         isLeadSurrogate h = true ∧ isTrailSurrogate l = true ∧
         (h - 0xD800) * 0x400 + (l - 0xDC00) + 0x10000 = cp.
Proof.
  intros H. unfold UTF16EncodeCodePoint. rewrite H.
  unfold between in H. apply andb_true_iff in H as [H1 H2].
  apply Z.leb_le in H1, H2.
  eexists _, _. split; [reflexivity|].
  pose proof (Z.div_mod (cp - 0x10000) 0x400 ltac:(lia)).
  pose proof (Z.mod_pos_bound (cp - 0x10000) 0x400 ltac:(lia)).
  assert (0 ≤ (cp - 0x10000) / 0x400 < 0x400).
  { split; [apply Z.div_pos; lia|]. apply Z.div_lt_upper_bound; lia. }
  unfold isLeadSurrogate, isTrailSurrogate, between.
  rewrite !andb_true_iff, !Z.leb_le. lia.
Qed.

Lemma encode_plain cp :
  between 0x10000 0x10FFFF cp = false → UTF16EncodeCodePoint cp = [cp].
Proof. intros H. unfold UTF16EncodeCodePoint. by rewrite H. Qed.

Lemma lead_not_trail c : isLeadSurrogate c = true → isTrailSurrogate c = false.
Proof.
  unfold isLeadSurrogate, isTrailSurrogate, between.
  rewrite andb_true_iff, andb_false_iff, !Z.leb_le, !Z.leb_gt. lia.
Qed.

Lemma decode_cons first rest :
  StringToCodePoints (first :: rest) =
  match rest with
  | second :: rest' =>
      if isLeadSurrogate first && isTrailSurrogate second
      then (first - 0xD800) * 0x400 + (second - 0xDC00) + 0x10000
             :: StringToCodePoints rest'
      else first :: StringToCodePoints rest
  | [] => [first]
  end.
Proof. reflexivity. Qed.

Lemma decode_encode cps :
  noSplitPair cps → StringToCodePoints (CodePointsToString cps) = cps.
Proof.
  unfold CodePointsToString.
  induction cps as [|a rest IH]; [done|]. intros [Ha Hrest].
  specialize (IH Hrest). cbn [map concat].
  destruct (between 0x10000 0x10FFFF a) eqn:Ea.
  - destruct (encode_supplementary a Ea) as (h & l & -> & Hh & Hl & Hcp).
    cbn [app]. rewrite decode_cons, Hh, Hl. cbn [andb]. by rewrite Hcp, IH.
  - rewrite (encode_plain a Ea). cbn [app]. rewrite decode_cons.
    destruct rest as [|b rest2]; [done|].
    cbn [map concat] in *.
    destruct (between 0x10000 0x10FFFF b) eqn:Eb.
    + destruct (encode_supplementary b Eb) as (h & l & Henc & Hh & Hl & Hcp).
      rewrite Henc in *. cbn [app] in *.
      rewrite (lead_not_trail h Hh), andb_false_r. by rewrite IH.
    + rewrite (encode_plain b Eb) in *. cbn [app] in *.
      rewrite Ha. by rewrite IH.
Qed.

Lemma decode_head second rest b tl :
  StringToCodePoints (second :: rest) = b :: tl → b = second ∨ 0x10000 ≤ b.
Proof.
  rewrite decode_cons. destruct rest as [|third rest']; [by intros [= <- _]; left|].
  destruct (isLeadSurrogate second && isTrailSurrogate third) eqn:E.
  - intros [= <- _]. right.
    apply andb_true_iff in E as [E1 E2].
    unfold isLeadSurrogate, isTrailSurrogate, between in *.
    rewrite andb_true_iff, !Z.leb_le in E1, E2. lia.
  - intros [= <- _]. by left.
Qed.

Lemma decode_noSplitPair s : noSplitPair (StringToCodePoints s).
Proof.
  assert (∀ n s, (length s ≤ n)%nat → noSplitPair (StringToCodePoints s)) as H;
    [|by apply (H (length s))].
  clear s. induction n as [|n IH]; intros s Hs.
  - destruct s; [done | simpl in Hs; lia].
  - destruct s as [|first rest]; [done|]. rewrite decode_cons.
    destruct rest as [|second rest']; [done|].
    destruct (isLeadSurrogate first && isTrailSurrogate second) eqn:E.
    + split; [|apply IH; simpl in *; lia].
      destruct (StringToCodePoints rest'); [done|].
      apply andb_true_iff in E as [E1 E2].
      unfold isLeadSurrogate, isTrailSurrogate, between in *.
      rewrite andb_true_iff, !Z.leb_le in E1, E2.
      rewrite andb_false_iff, andb_false_iff, !Z.leb_gt. lia.
    + split; [|apply IH; simpl in *; lia].
      destruct (StringToCodePoints (second :: rest')) as [|b tl] eqn:Eb; [done|].
      destruct (decode_head _ _ _ _ Eb) as [->|Hb]; [done|].
      apply andb_false_iff. right.
      unfold isTrailSurrogate, between.
      rewrite andb_false_iff, !Z.leb_gt. lia.
Qed.

Lemma decode_nonempty c s : StringToCodePoints (c :: s) ≠ [].
Proof. rewrite decode_cons. by repeat case_match. Qed.

Lemma encode_nonempty c cps : CodePointsToString (c :: cps) ≠ [].
Proof.
  unfold CodePointsToString, UTF16EncodeCodePoint. cbn [map concat].
  by destruct (between 0x10000 0x10FFFF c).
Qed.

Lemma foldCode_surrogate c :
  (isLeadSurrogate (foldCode c) = isLeadSurrogate c) ∧
  (isTrailSurrogate (foldCode c) = isTrailSurrogate c) ∧
  (between 0x10000 0x10FFFF (foldCode c) = between 0x10000 0x10FFFF c).
Proof.
  destruct (decide (0x180 ≤ c)) as [H|H]; [by rewrite foldCode_high|].
  destruct (foldCode_range c) as [->|Hr]; [done|].
  unfold isLeadSurrogate, isTrailSurrogate, between.
  repeat split; apply bool_decide_ext_iff || idtac.
  all: repeat match goal with
       | |- context [?a <=? ?b] => destruct (Z.leb_spec a b)
       end; simpl; try reflexivity; lia.
Qed.

Lemma fold_encode cps :
  map foldCode (CodePointsToString cps) = CodePointsToString (map foldCode cps).
Proof.
  unfold CodePointsToString. induction cps as [|a rest IH]; [done|].
  cbn [map concat]. rewrite map_app, IH. f_equal.
  destruct (foldCode_surrogate a) as (_ & _ & Hs).
  destruct (between 0x10000 0x10FFFF a) eqn:Ea.
  - rewrite foldCode_high by (unfold between in Ea; apply andb_true_iff in Ea as [Ea _];
      apply Z.leb_le in Ea; lia).
    destruct (encode_supplementary a Ea) as (h & l & -> & Hh & Hl & _).
    cbn [map]. rewrite !foldCode_high; [done| |].
    + unfold isTrailSurrogate, between in Hl.
      apply andb_true_iff in Hl as [Hl _]. apply Z.leb_le in Hl. lia.
    + unfold isLeadSurrogate, between in Hh.
      apply andb_true_iff in Hh as [Hh _]. apply Z.leb_le in Hh. lia.
  - rewrite (encode_plain a Ea), encode_plain by by rewrite Hs. done.
Qed.

Lemma noSplitPair_fold cps : noSplitPair cps → noSplitPair (map foldCode cps).
Proof.
  induction cps as [|a rest IH]; [done|]. intros [Ha Hrest].
  split; [|by apply IH]. destruct rest as [|b rest2]; [done|]. cbn [map].
  destruct (foldCode_surrogate a) as (-> & _ & _).
  by destruct (foldCode_surrogate b) as (_ & -> & _).
Qed.

(** ** Lower-casing *)

Lemma toLowerOne_cases pI pC c rest :
  (toLowerOne pI pC c rest = [] ∧ pI = true) ∨
  (∃ o, toLowerOne pI pC c rest = [o] ∧
        (o = U.i_small ∨ o = U.i_dotless ∨ o = U.final_sigma ∨
         o = lowercaseOf T c)).
Proof.
  unfold toLowerOne.
  destruct (c =? U.I_dot); [right; eauto|].
  destruct (c =? U.dot_above), pI; cbn [andb]; [left; done| | |].
  all: repeat case_match; right; eauto 6.
Qed.

Lemma toLowerOne_false pC c rest :
  ∃ o, toLowerOne false pC c rest = [o] ∧
       (o = U.i_small ∨ o = U.i_dotless ∨ o = U.final_sigma ∨
        o = lowercaseOf T c).
Proof. by destruct (toLowerOne_cases false pC c rest) as [[_ ?]|?]. Qed.

Lemma toLowerTr_nonempty pC c rest : toLowerTr false pC (c :: rest) ≠ [].
Proof.
  cbn [toLowerTr]. by destruct (toLowerOne_false pC c rest) as (o & -> & _).
Qed.

Lemma isFollowedByDotAbove_plain rest :
  Forall (λ c, 0 ≤ c ≤ 0x17F) rest → isFollowedByDotAbove rest = false.
Proof.
  induction 1 as [|c rest Hc _ IH]; [done|]. cbn [isFollowedByDotAbove].
  destruct (Z.eqb_spec c U.dot_above) as [->|_]; [unfold U.dot_above in Hc; lia|].
  by destruct (otherAccentOf T c).
Qed.

Lemma decode_plain s :
  Forall (λ c, 0 ≤ c ≤ 0x17F) s → StringToCodePoints s = s.
Proof.
  induction 1 as [|c rest Hc _ IH]; [done|]. rewrite decode_cons, IH.
  destruct rest as [|d rest']; [done|].
  assert (isLeadSurrogate c = false) as ->; [|done].
  unfold isLeadSurrogate, between. apply andb_false_iff. left.
  apply Z.leb_gt. lia.
Qed.

Lemma latinLowerTr_table :
  forallb (λ c, between 0 0x17F (latinLowerTr c)) (seqZ 0 0x180) = true.
Proof. vm_compute. reflexivity. Qed.

Lemma latinLowerTr_range c : 0 ≤ c ≤ 0x17F → 0 ≤ latinLowerTr c ≤ 0x17F.
Proof.
  intros Hc. pose proof latinLowerTr_table as Tb.
  rewrite forallb_forall in Tb. specialize (Tb c).
  rewrite <- list_elem_of_In, elem_of_seqZ in Tb. specialize (Tb ltac:(lia)).
  unfold between in Tb. apply andb_true_iff in Tb as [H1 H2].
  apply Z.leb_le in H1, H2. lia.
Qed.

Lemma encode_BMP cps :
  Forall (λ c, c < 0x10000) cps → CodePointsToString cps = cps.
Proof.
  unfold CodePointsToString. induction 1 as [|c rest Hc _ IH]; [done|].
  cbn [map concat]. rewrite IH, encode_plain; [done|].
  unfold between. apply andb_false_iff. left. apply Z.leb_gt. lia.
Qed.

Lemma normalizeTurkish_nil_inv s : normalizeTurkish s = [] → s = [].
Proof.
  rewrite normalizeTurkish_unfold. unfold toLocaleLowerCase_tr.
  destruct s as [|c s]; [done|]. intros H. apply fmap_nil_inv in H.
  destruct (StringToCodePoints (c :: s)) as [|d cps] eqn:E;
    [by apply decode_nonempty in E|].
  destruct (toLowerTr false false (d :: cps)) as [|o out] eqn:Eo;
    [by apply toLowerTr_nonempty in Eo|].
  by apply encode_nonempty in H.
Qed.

Lemma plain_check s :
  forallb (between 0 0x17F) s = true → Forall (λ c, 0 ≤ c ≤ 0x17F) s.
Proof.
  rewrite forallb_forall, Forall_forall. intros H c Hc.
  apply list_elem_of_In, H in Hc. unfold between in Hc.
  apply andb_true_iff in Hc as [H1 H2]. apply Z.leb_le in H1, H2. lia.
Qed.

Lemma foldCode_fixed_iff c :
  foldCode c = c ↔
  c ∉ [U.g_breve; U.u_uml; U.s_ced; U.i_dotless; U.o_uml; U.c_ced].
Proof.
  split.
  - intros Hc H.
    repeat (apply elem_of_cons in H as [->|H]; [discriminate Hc|]).
    by apply elem_of_nil in H.
  - intros H. rewrite !not_elem_of_cons in H.
    destruct H as (H1 & H2 & H3 & H4 & H5 & H6 & _).
    unfold foldCode.
    apply Z.eqb_neq in H1 as ->. apply Z.eqb_neq in H2 as ->.
    apply Z.eqb_neq in H3 as ->. apply Z.eqb_neq in H4 as ->.
    apply Z.eqb_neq in H5 as ->. by apply Z.eqb_neq in H6 as ->.
Qed.

Lemma normalizeTurkish_any_string s :
  normalizeTurkish_any (JString s) = Some (normalizeTurkish s).
Proof. by destruct s. Qed.

Lemma normalizeTurkish_any_falsy v :
  truthy v = false → normalizeTurkish_any v = Some [].
Proof. intros H. unfold normalizeTurkish_any. by rewrite H. Qed.

Section Facts.
Hypothesis facts : UnicodeFacts T.

Lemma stable_i_small : stableCP U.i_small.
Proof. unfold stableCP. by rewrite (lower_latin T facts). Qed.

Lemma stable_i_dotless : stableCP U.i_dotless.
Proof. unfold stableCP. by rewrite (lower_latin T facts). Qed.

Lemma stable_not_capital c :
  stableCP c → c ≠ U.I_dot ∧ c ≠ U.I_cap ∧ c ≠ U.Sigma.
Proof.
  unfold stableCP. intros Hc. repeat split; intros ->.
  - rewrite (lower_latin T facts) in Hc by done. discriminate Hc.
  - rewrite (lower_latin T facts) in Hc by done. discriminate Hc.
  - rewrite (lower_Sigma T facts) in Hc. discriminate Hc.
Qed.

Lemma toLowerOne_stable pI pC c rest :
  Forall stableCP (toLowerOne pI pC c rest).
Proof.
  destruct (toLowerOne_cases pI pC c rest) as [[-> _]|(o & -> & Ho)];
    [constructor|].
  repeat constructor.
  destruct Ho as [->|[->|[->| ->]]].
  - apply stable_i_small.
  - apply stable_i_dotless.
  - apply (lower_final_sigma T facts).
  - apply (lower_image_fixed T facts).
Qed.

Lemma toLowerTr_stable pI pC cps : Forall stableCP (toLowerTr pI pC cps).
Proof.
  revert pI pC; induction cps as [|c rest IH]; intros pI pC; [constructor|].
  cbn [toLowerTr]. apply Forall_app. split; [apply toLowerOne_stable | apply IH].
Qed.

Lemma toLowerTr_fixed pC cps :
  Forall stableCP cps → toLowerTr false pC cps = cps.
Proof.
  intros H. revert pC. induction H as [|c rest Hc _ IH]; intros pC; [done|].
  destruct (stable_not_capital c Hc) as (H1 & H2 & H3).
  cbn [toLowerTr]. unfold toLowerOne.
  apply Z.eqb_neq in H1, H2, H3. rewrite H1, H2, H3, !andb_false_r.
  cbn [andb orb app]. by rewrite IH, Hc.
Qed.

Lemma surrogate_output c :
  isSurrogate (lowercaseOf T c) = true →
  lowercaseOf T c = c ∧ otherAccentOf T c = false.
Proof. intros H. by apply (surrogate_plain T facts), (surrogate_image T facts). Qed.

Lemma lead_is_surrogate c : isLeadSurrogate c = true → isSurrogate c = true.
Proof.
  unfold isLeadSurrogate, isSurrogate, between.
  rewrite !andb_true_iff, !Z.leb_le. lia.
Qed.

Lemma trail_is_surrogate c : isTrailSurrogate c = true → isSurrogate c = true.
Proof.
  unfold isTrailSurrogate, isSurrogate, between.
  rewrite !andb_true_iff, !Z.leb_le. lia.
Qed.

(** An output code point that is a surrogate is the input code point. *)
Lemma toLowerOne_surrogate pI pC c rest o :
  toLowerOne pI pC c rest = [o] → isSurrogate o = true →
  o = c ∧ otherAccentOf T c = false.
Proof.
  intros Ho Hs.
  destruct (toLowerOne_cases pI pC c rest) as [[E _]|(o' & E & Ho')];
    rewrite E in Ho; [done|]. injection Ho as ->.
  destruct Ho' as [->|[->|[->| ->]]]; try discriminate Hs.
  by apply surrogate_output in Hs as [-> ?].
Qed.

Lemma toLowerTr_noSplitPair pI pC cps :
  noSplitPair cps → noSplitPair (toLowerTr pI pC cps).
Proof.
  revert pI pC. induction cps as [|c rest IH]; intros pI pC; [done|].
  intros [Hc Hrest]. cbn [toLowerTr].
  destruct (toLowerOne_cases pI pC c rest) as [[-> _]|(o & Eo & _)];
    [by apply IH|].
  rewrite Eo. cbn [app]. split; [|by apply IH].
  destruct (isLeadSurrogate o) eqn:Hlead; [|by destruct (toLowerTr _ _ rest)].
  destruct (toLowerOne_surrogate _ _ _ _ _ Eo (lead_is_surrogate o Hlead))
    as [-> Hacc].
  assert ((c =? U.I_cap) = false) as ->.
  { apply Z.eqb_neq. intros ->. discriminate Hlead. }
  rewrite Hacc. cbn [andb orb].
  destruct rest as [|d rest2]; [done|].
  cbn [toLowerTr].
  destruct (toLowerOne_false (if caseIgnorableOf T c then pC else casedOf T c)
              d rest2) as (o2 & Eo2 & _).
  rewrite Eo2. cbn [app].
  destruct (isTrailSurrogate o2) eqn:Htrail; [|done].
  destruct (toLowerOne_surrogate _ _ _ _ _ Eo2 (trail_is_surrogate o2 Htrail))
    as [-> _].
  by rewrite Hlead, Htrail in Hc.
Qed.

(** The code points of a normal form: the lower-cased code points with
    the six replacements. *)
Lemma normalizeTurkish_codePoints text :
  ∃ cps, Forall stableCP cps ∧ noSplitPair cps ∧
         normalizeTurkish text = CodePointsToString (map foldCode cps) ∧
         (text ≠ [] → cps ≠ []).
Proof.
  exists (toLowerTr false false (StringToCodePoints text)).
  split; [apply toLowerTr_stable|].
  split; [apply toLowerTr_noSplitPair, decode_noSplitPair|].
  split; [by rewrite normalizeTurkish_unfold, <- fold_encode|].
  destruct text as [|c text]; [done|]. intros _.
  destruct (StringToCodePoints (c :: text)) eqn:E;
    [by apply decode_nonempty in E|].
  apply toLowerTr_nonempty.
Qed.

Lemma stable_foldCode c : stableCP c → stableCP (foldCode c).
Proof.
  intros Hc. destruct (foldCode_cases c) as [->|H]; [done|].
  unfold stableCP.
  repeat (apply elem_of_cons in H as [->|H];
          [by rewrite (lower_latin T facts)|]).
  by apply elem_of_nil in H.
Qed.

(** Lower-casing a string of code units of U+0000..U+017F. *)
Lemma toLowerTr_plain pI pC s :
  Forall (λ c, 0 ≤ c ≤ 0x17F) s → toLowerTr pI pC s = map latinLowerTr s.
Proof.
  intros H. revert pI pC. induction H as [|c rest Hc Hrest IH]; intros pI pC;
    [done|].
  cbn [toLowerTr map]. rewrite IH. unfold toLowerOne, latinLowerTr.
  rewrite (isFollowedByDotAbove_plain rest Hrest).
  destruct (Z.eqb_spec c U.I_dot) as [->|_]; [done|].
  destruct (Z.eqb_spec c U.dot_above) as [->|_]; [unfold U.dot_above in Hc; lia|].
  destruct (Z.eqb_spec c U.I_cap) as [->|_]; [done|].
  destruct (Z.eqb_spec c U.Sigma) as [->|_]; [unfold U.Sigma in Hc; lia|].
  cbn [andb app]. by rewrite (lower_latin T facts).
Qed.

Lemma normalizeTurkish_plain s :
  Forall (λ c, 0 ≤ c ≤ 0x17F) s →
  normalizeTurkish s = map (λ c, foldCode (latinLowerTr c)) s.
Proof.
  intros H. rewrite normalizeTurkish_unfold. unfold toLocaleLowerCase_tr.
  rewrite decode_plain, toLowerTr_plain by done.
  rewrite encode_BMP, map_map; [done|].
  apply Forall_fmap. eapply Forall_impl; [exact H|].
  intros c Hc. simpl. pose proof (latinLowerTr_range c Hc). lia.
Qed.

(** The code units of a lower-cased string: code points that lower-casing
    leaves alone, or surrogates. *)
Lemma toLocaleLowerCase_units text :
  Forall (λ u, stableCP u ∨ 0xD800 ≤ u) (toLocaleLowerCase_tr text).
Proof.
  unfold toLocaleLowerCase_tr, CodePointsToString.
  pose proof (toLowerTr_stable false false (StringToCodePoints text)) as H.
  induction H as [|c rest Hc _ IH]; [constructor|].
  cbn [map concat]. apply Forall_app. split; [|done].
  destruct (between 0x10000 0x10FFFF c) eqn:Ec.
  - destruct (encode_supplementary c Ec) as (h & l & -> & Hh & Hl & _).
    unfold isLeadSurrogate, isTrailSurrogate, between in Hh, Hl.
    rewrite andb_true_iff, !Z.leb_le in Hh, Hl.
    constructor; [right; lia|]. constructor; [right; lia|]. constructor.
  - rewrite (encode_plain c Ec). constructor; [by left|constructor].
Qed.

(** Lower-casing leaves a normal form as it is. *)
Lemma toLocaleLowerCase_normal text :
  toLocaleLowerCase_tr (normalizeTurkish text) = normalizeTurkish text.
Proof.
  destruct (normalizeTurkish_codePoints text) as (cps & Hst & Hwf & -> & _).
  unfold toLocaleLowerCase_tr.
  rewrite decode_encode by by apply noSplitPair_fold.
  rewrite toLowerTr_fixed; [done|].
  eapply Forall_fmap, Forall_impl; [exact Hst|]. apply stable_foldCode.
Qed.

Lemma stable_lowerFixed u : stableCP u → 0 ≤ u ≤ 0x17F → lowerFixed u.
Proof.
  unfold stableCP, lowerFixed. intros Hu Hr.
  by rewrite <- (lower_latin T facts u Hr).
Qed.

(** The code units of a normal form. *)
Lemma normalizeTurkish_units text :
  Forall (λ u, (stableCP u ∨ 0xD800 ≤ u) ∧ foldCode u = u) (normalizeTurkish text).
Proof.
  rewrite normalizeTurkish_unfold.
  pose proof (toLocaleLowerCase_units text) as H.
  induction H as [|u rest Hu _ IH]; cbn [map]; constructor; [|done].
  split; [|apply foldCode_idem].
  destruct Hu as [Hu|Hu]; [left; by apply stable_foldCode|].
  right. by rewrite foldCode_high by lia.
Qed.

(** C1. For every string, [normalizeTurkish] returns the Turkish
    lower-casing of the string with the folding table applied to each
    code unit; each letter of the table (İ, I, ı, i, Ü, ü, Ö, ö, Ç, ç,
    Ğ, ğ, Ş, ş), taken alone, is sent to its base letter; the three
    spellings of Istanbul normalise to the same string; and the empty
    string, as any falsy value, gives the empty string and nothing is
    thrown. *)
Theorem normalizeTurkish_spec :
  (∀ text, normalizeTurkish text = map foldLetter (toLocaleLowerCase_tr text)) ∧
  Forall (λ p, normalizeTurkish [p.1] = [p.2]) foldTable ∧
  normalizeTurkish str_Istanbul_dotted = normalizeTurkish str_istanbul ∧
  normalizeTurkish str_istanbul = normalizeTurkish str_ISTANBUL_dotted ∧
  normalizeTurkish [] = [] ∧
  (∀ v, truthy v = false → normalizeTurkish_any v = Some []) ∧
  (∀ s, normalizeTurkish_any (JString s) = Some (normalizeTurkish s)).
Proof.
  split; [|split; [|split; [|split]]].
  - intros text. rewrite normalizeTurkish_unfold.
    pose proof (toLocaleLowerCase_units text) as H.
    induction H as [|u rest Hu _ IH]; cbn [map]; [done|].
    rewrite IH. f_equal. symmetry.
    destruct (decide (0 ≤ u ≤ 0x17F)) as [Hr|Hr].
    + destruct Hu as [Hu|Hu]; [|lia].
      by apply foldLetter_foldCode, stable_lowerFixed.
    + apply foldLetter_outside. lia.
  - unfold foldTable.
    repeat (apply Forall_cons; split;
            [by rewrite normalizeTurkish_plain by by apply plain_check|]).
    constructor.
  - by rewrite !normalizeTurkish_plain by by apply plain_check.
  - by rewrite !normalizeTurkish_plain by by apply plain_check.
  - split; [done|].
    split; [apply normalizeTurkish_any_falsy | apply normalizeTurkish_any_string].
Qed.

(** C8. [normalizeTurkish] is idempotent, and the empty string is
    normalised to itself. *)
Theorem normalizeTurkish_idempotent :
  (∀ x, normalizeTurkish (normalizeTurkish x) = normalizeTurkish x) ∧
  normalizeTurkish [] = [].
Proof.
  split; [|done]. intros x.
  rewrite (normalizeTurkish_unfold (normalizeTurkish x)).
  rewrite toLocaleLowerCase_normal, normalizeTurkish_unfold, map_map.
  apply map_ext. intros c. apply foldCode_idem.
Qed.

End Facts.

(** ** Search and column filters *)

Lemma forall_Key (P : Key → Prop) :
  (∀ k, P k) ↔ P K_il ∧ P K_ilce ∧ P K_belediye ∧ P K_mahalle ∧ P K_durum.
Proof.
  split; [by auto|]. intros (?&?&?&?&?) []; assumption.
Qed.

Lemma exists_Key (P : Key → Prop) :
  (∃ k, P k) ↔ P K_il ∨ P K_ilce ∨ P K_belediye ∨ P K_mahalle ∨ P K_durum.
Proof.
  split; [intros [[] ?]; tauto|].
  intros [?|[?|[?|[?|?]]]]; eauto.
Qed.

Global Instance searchMatch_dec q r : Decision (searchMatch q r).
Proof.
  unfold searchMatch.
  refine (cast_if (decide
    (Substring (normalizeTurkish q) (normalizeTurkish (il r)) ∨
     Substring (normalizeTurkish q) (normalizeTurkish (ilce r)) ∨
     Substring (normalizeTurkish q) (normalizeTurkish (belediye r)) ∨
     Substring (normalizeTurkish q) (normalizeTurkish (mahalle r)) ∨
     Substring (normalizeTurkish q) (normalizeTurkish (durum r)))));
    by rewrite exists_Key.
Defined.

Global Instance satisfiesField_dec f r k : Decision (satisfiesField f r k).
Proof. unfold satisfiesField. destruct k; apply _. Defined.

Global Instance satisfies_dec f r : Decision (satisfies f r).
Proof.
  unfold satisfies.
  refine (cast_if (decide
    (satisfiesField f r K_il ∧ satisfiesField f r K_ilce ∧
     satisfiesField f r K_belediye ∧ satisfiesField f r K_mahalle ∧
     satisfiesField f r K_durum)));
    by rewrite forall_Key.
Defined.

Lemma constraint_exact (c v : jsstring) :
  strict_eq c [] || strict_eq v c = true ↔ (c ≠ [] → v = c).
Proof.
  rewrite orb_true_iff, !strict_eq_true.
  destruct (decide (c = [])); tauto.
Qed.

Lemma constraint_contains (c v : jsstring) :
  strict_eq c [] || includes (normalizeTurkish v) (normalizeTurkish c) = true
  ↔ (c ≠ [] → Substring (normalizeTurkish c) (normalizeTurkish v)).
Proof.
  rewrite orb_true_iff, strict_eq_true, includes_Substring.
  destruct (decide (c = [])); tauto.
Qed.

Lemma searchedData_filter D q :
  q ≠ [] → searchedData D q = filter (searchMatch q) D.
Proof.
  intros Hq. unfold searchedData. destruct q as [|c q]; [done|].
  cbn [falsy]. apply list_filter_iff. intros r.
  unfold searchMatch. rewrite exists_Key, Is_true_true.
  rewrite !orb_true_iff, !includes_Substring. simpl. tauto.
Qed.

Lemma filteredData_filter S f : filteredData S f = filter (satisfies f) S.
Proof.
  unfold filteredData. apply list_filter_iff. intros r.
  unfold satisfies. rewrite forall_Key, Is_true_true, !andb_true_iff.
  rewrite !constraint_exact, constraint_contains.
  unfold satisfiesField. simpl. tauto.
Qed.

(** C2. With an empty query the search returns the records unchanged;
    otherwise it is the filter that keeps, in their order, exactly the
    records one of whose five normalised fields contains the normalised
    query.  So the result is always a sublist of the records, and a
    record is in the result iff it is among the records and the query is
    empty or matches it. *)
Theorem searchedData_spec (D : list YerlesimYeri) (q : jsstring) :
  searchedData D [] = D ∧
  searchedData D q = (if decide (q = []) then D else filter (searchMatch q) D) ∧
  sublist (searchedData D q) D ∧
  (∀ r, r ∈ searchedData D q ↔ r ∈ D ∧ (q = [] ∨ searchMatch q r)).
Proof.
  split; [done|].
  destruct (decide (q = [])) as [->|Hq].
  - split; [done|]. split; [done|]. intros r. tauto.
  - rewrite searchedData_filter by done.
    split; [done|]. split; [apply sublist_filter|].
    intros r. rewrite list_elem_of_filter. tauto.
Qed.

(** C3. The column filter keeps, in their order, exactly the records that
    satisfy every non-empty constraint (the conjunction over the five
    fields; [il], [ilce], [belediye] and [durum] by equality with the raw
    value, [mahalle] by normalised containment), and in the application
    it runs on the output of the search stage. *)
Theorem filteredData_spec (S : list YerlesimYeri) (f : Filters) :
  filteredData S f = filter (satisfies f) S ∧
  (∀ r, r ∈ filteredData S f ↔ r ∈ S ∧
     (il f ≠ [] → il r = il f) ∧
     (ilce f ≠ [] → ilce r = ilce f) ∧
     (belediye f ≠ [] → belediye r = belediye f) ∧
     (mahalle f ≠ [] →
        Substring (normalizeTurkish (mahalle f)) (normalizeTurkish (mahalle r))) ∧
     (durum f ≠ [] → durum r = durum f)) ∧
  (∀ st, App_filteredData st =
     filter (satisfies (filters st))
       (searchedData (yerlesimVerileri st) (searchTerm st))).
Proof.
  split; [apply filteredData_filter|]. split.
  - intros r. rewrite filteredData_filter, list_elem_of_filter.
    unfold satisfies. rewrite forall_Key. unfold satisfiesField. simpl. tauto.
  - intros st. apply filteredData_filter.
Qed.

Lemma filter_all {A} (P : A → Prop) `{!∀ x, Decision (P x)} (l : list A) :
  (∀ x, P x) → filter P l = l.
Proof.
  intros HP. induction l as [|x l IH]; [done|].
  by rewrite filter_cons_True, IH.
Qed.

Lemma satisfies_noFilters r : satisfies noFilters r.
Proof. intros k Hk. by destruct k. Qed.

Lemma unionField_cases f1 f2 k :
  disjointFilters f1 f2 →
  (field k f1 = [] ∧ unionField f1 f2 k = field k f2) ∨
  (field k f1 ≠ [] ∧ field k f2 = [] ∧ unionField f1 f2 k = field k f1).
Proof.
  intros Hd. unfold unionField. destruct (Hd k) as [E|E].
  - left. by rewrite E.
  - destruct (field k f1) eqn:E1; [left | right]; simpl; by rewrite ?E.
Qed.

Lemma field_unionFilters f1 f2 k : field k (unionFilters f1 f2) = unionField f1 f2 k.
Proof. by destruct k. Qed.

Lemma satisfies_union f1 f2 r :
  disjointFilters f1 f2 →
  satisfies f2 r ∧ satisfies f1 r ↔ satisfies (unionFilters f1 f2) r.
Proof.
  intros Hd. unfold satisfies. split.
  - intros [H2 H1] k. specialize (H1 k). specialize (H2 k).
    unfold satisfiesField in *. rewrite field_unionFilters.
    pose proof (field_unionFilters f1 f2 K_mahalle) as Em. simpl in Em.
    destruct (unionField_cases f1 f2 k Hd) as [[E1 E]|(N1 & E2 & E)];
      destruct k; simpl in *; rewrite ?Em, E; auto.
  - intros H. split; intros k; specialize (H k);
      unfold satisfiesField in *; rewrite field_unionFilters in H;
      pose proof (field_unionFilters f1 f2 K_mahalle) as Em; simpl in Em;
      destruct (unionField_cases f1 f2 k Hd) as [[E1 E]|(N1 & E2 & E)];
      destruct k; simpl in *; rewrite ?Em, ?E in H; intros Hk;
      try (by apply H); congruence.
Qed.

(** C7. The empty filter state is an identity of the column filter, and
    filtering by one state and then by another that constrains other
    fields is filtering once by their union. *)
Theorem filteredData_compose (D : list YerlesimYeri) (f1 f2 : Filters) :
  disjointFilters f1 f2 →
  filteredData D noFilters = D ∧
  filteredData (filteredData D f1) f2 = filteredData D (unionFilters f1 f2).
Proof.
  intros Hd. split.
  - rewrite filteredData_filter. apply filter_all, satisfies_noFilters.
  - rewrite !filteredData_filter, list_filter_filter.
    apply list_filter_iff. intros r. by apply satisfies_union.
Qed.

(** ** Facet options *)

Lemma delete_key_entries key f :
  delete_key key (entries f) =
  match key with
  | K_il => [(K_ilce, ilce f); (K_belediye, belediye f);
             (K_mahalle, mahalle f); (K_durum, durum f)]
  | K_ilce => [(K_il, il f); (K_belediye, belediye f);
               (K_mahalle, mahalle f); (K_durum, durum f)]
  | K_belediye => [(K_il, il f); (K_ilce, ilce f);
                   (K_mahalle, mahalle f); (K_durum, durum f)]
  | K_mahalle => [(K_il, il f); (K_ilce, ilce f);
                  (K_belediye, belediye f); (K_durum, durum f)]
  | K_durum => [(K_il, il f); (K_ilce, ilce f);
                (K_belediye, belediye f); (K_mahalle, mahalle f)]
  end.
Proof. by destruct key. Qed.

Lemma delete_key_setField key v f :
  delete_key key (entries (setField key v f)) = delete_key key (entries f).
Proof. rewrite !delete_key_entries. by destruct key. Qed.

Lemma SameValueZero_string v y : SameValueZero (JString v) y = true ↔ y = JString v.
Proof.
  destruct y; simpl; try (split; [discriminate|done]).
  rewrite strict_eq_true. split; [by intros -> | by intros [= ->]].
Qed.

Lemma Set_add_string set v s :
  JString s ∈ Set_add set v ↔ JString s ∈ set ∨ v = JString s.
Proof.
  unfold Set_add. destruct (existsb (SameValueZero v) set) eqn:E.
  - split; [by left|]. intros [Hs| ->]; [done|].
    apply existsb_exists in E as (y & Hy & E).
    apply SameValueZero_string in E as ->. by apply list_elem_of_In.
  - rewrite elem_of_app, list_elem_of_singleton.
    split; (intros [?|?]; [by left | by right]).
Qed.

Lemma fold_Set_add_string values set s :
  JString s ∈ fold_left Set_add values set ↔ JString s ∈ set ∨ JString s ∈ values.
Proof.
  revert set; induction values as [|v values IH]; intros set; simpl.
  - rewrite elem_of_nil. tauto.
  - rewrite IH, Set_add_string, elem_of_cons.
    split; [intros [[?| ->]|?] | intros [?|[->|?]]]; auto.
Qed.

Lemma new_Set_string values s : JString s ∈ new_Set values ↔ JString s ∈ values.
Proof. unfold new_Set. rewrite fold_Set_add_string, elem_of_nil. tauto. Qed.

(** The test of the final [filter]: a string, and not the empty one. *)
Lemma option_test_spec (val : json) :
  typeof_string val && negb (strict_eq_value val []) = true ↔
  ∃ v, val = JString v ∧ v ≠ [].
Proof.
  destruct val; simpl; try (split; [discriminate | by intros (v & [=] & _)]).
  rewrite negb_true_iff, <- not_true_iff_false, strict_eq_true. split.
  - intros Hs. by exists s.
  - by intros (v & [= ->] & Hv).
Qed.

Lemma Set_add_NoDup set v :
  NoDup (filter (λ val, typeof_string val && negb (strict_eq_value val [])) set) →
  NoDup (filter (λ val, typeof_string val && negb (strict_eq_value val []))
           (Set_add set v)).
Proof.
  intros Hs. unfold Set_add. destruct (existsb (SameValueZero v) set) eqn:E; [done|].
  rewrite filter_app. apply NoDup_app. split; [done|].
  split; [|apply NoDup_filter, NoDup_singleton].
  intros x [Hx Hin]%list_elem_of_filter [_ ->%list_elem_of_singleton]%list_elem_of_filter.
  apply Is_true_true, option_test_spec in Hx as (s & -> & _).
  assert (existsb (SameValueZero (JString s)) set = true) as E'; [|congruence].
  apply existsb_exists. exists (JString s). split; [by apply list_elem_of_In|].
  by apply SameValueZero_string.
Qed.

Lemma new_Set_NoDup values :
  NoDup (filter (λ val, typeof_string val && negb (strict_eq_value val []))
           (new_Set values)).
Proof.
  unfold new_Set.
  assert (∀ set,
    NoDup (filter (λ val, typeof_string val && negb (strict_eq_value val [])) set) →
    NoDup (filter (λ val, typeof_string val && negb (strict_eq_value val []))
             (fold_left Set_add values set))) as H.
  { induction values as [|v values IH]; intros set Hs; simpl; [done|].
    by apply IH, Set_add_NoDup. }
  apply H. constructor.
Qed.

Lemma Array_every_Some {A} (callback : A → option bool) (P : A → Prop) arr :
  Forall (λ x, ∃ b, callback x = Some b ∧ (b = true ↔ P x)) arr →
  ∃ b, Array_every callback arr = Some b ∧ (b = true ↔ Forall P arr).
Proof.
  induction 1 as [|x rest (b & Eb & Hb) _ (b' & Eb' & Hb')]; simpl.
  - exists true. split; [done|]. split; [constructor|done].
  - rewrite Eb. destruct b.
    + exists b'. split; [done|]. rewrite Hb', Forall_cons.
      split; [intros ?; split; [by apply Hb|done] | by intros [_ ?]].
    + exists false. split; [done|]. split; [done|].
      intros [Hx _]%Forall_cons. by apply Hb in Hx.
Qed.

Lemma Array_filter_Some {A} (callback : A → option bool) (P : A → Prop) arr :
  Forall (λ x, ∃ b, callback x = Some b ∧ (b = true ↔ P x)) arr →
  ∃ kept, Array_filter callback arr = Some kept ∧
          sublist kept arr ∧ ∀ x, x ∈ kept ↔ x ∈ arr ∧ P x.
Proof.
  induction 1 as [|x rest (b & Eb & Hb) _ (kept & Ek & Hsub & Hk)]; simpl.
  - exists []. split; [done|]. split; [done|]. intros x. rewrite elem_of_nil. tauto.
  - rewrite Eb, Ek. destruct b.
    + exists (x :: kept). split; [done|]. split; [by constructor|].
      intros y. rewrite !elem_of_cons, Hk. split.
      * intros [->|[? ?]]; [split; [by left | by apply Hb] | split; [by right | done]].
      * intros [[->|?] ?]; [by left | by right].
    + exists kept. split; [done|]. split; [by constructor|].
      intros y. rewrite elem_of_cons, Hk. split.
      * intros [? ?]. split; [by right | done].
      * intros [[->|?] Hy]; [|done]. by apply Hb in Hy.
Qed.

Section SortProperties.
Context {A : Type} (comparefn : A → A → Z).

Lemma sort_insert_Permutation x l : sort_insert comparefn x l ≡ₚ x :: l.
Proof.
  induction l as [|y l IH]; simpl; [done|].
  destruct (0 <? comparefn x y); [|done].
  rewrite IH. apply Permutation_swap.
Qed.

Lemma Array_sort_Permutation l : Array_sort comparefn l ≡ₚ l.
Proof.
  induction l as [|x l IH]; simpl; [done|].
  rewrite sort_insert_Permutation. by rewrite IH.
Qed.

(** The comparator is consistent. *)
Hypothesis comparefn_sym : ∀ a b, 0 < comparefn a b → comparefn b a < 0.
Hypothesis comparefn_trans :
  ∀ a b c, comparefn a b ≤ 0 → comparefn b c ≤ 0 → comparefn a c ≤ 0.



End SortProperties.

(** The test that [every] applies to one entry of the other filters. *)
Lemma entry_test_spec (item : Sanitized) (k : Key) (v : jsstring) :
  (k = K_mahalle → v = [] ∨ isString (s_mahalle item)) →
  ∃ b,
    (if falsy v then Some true
     else if bool_decide (k = K_mahalle) then
       match normalizeTurkish_any (s_mahalle item) with
       | Some text => Some (includes text (normalizeTurkish v))
       | None => None
       end
     else Some (strict_eq_value (sfield k item) v)) = Some b ∧
    (b = true ↔
     (v ≠ [] →
      match k with
      | K_mahalle =>
          ∃ text, normalizeTurkish_any (s_mahalle item) = Some text ∧
                  Substring (normalizeTurkish v) text
      | _ => sfield k item = JString v
      end)).
Proof.
  intros Hm. destruct v as [|c v]; [by exists true|]. cbn [falsy].
  assert (∀ a, strict_eq_value a (c :: v) = true ↔ a = JString (c :: v)) as Heq.
  { intros a. destruct a; simpl; try (split; [discriminate|done]).
    rewrite strict_eq_true. split; [by intros -> | by intros [= ->]]. }
  destruct k; simpl;
    try (eexists; split; [reflexivity|]; rewrite Heq;
         split; [by intros ? _ | intros H; by apply H]).
  destruct (Hm eq_refl) as [?|[s ->]]; [done|].
  rewrite normalizeTurkish_any_string. eexists. split; [reflexivity|].
  rewrite includes_Substring. split.
  - intros H _. by eexists.
  - intros H. by destruct (H ltac:(done)) as (text & [= <-] & ?).
Qed.

Lemma otherFilters_satisfies key f item :
  mahalle (setField key [] f) = [] ∨ isString (s_mahalle item) →
  ∃ b,
    Array_every (λ '(k, v),
      if falsy v then Some true
      else if bool_decide (k = K_mahalle) then
        match normalizeTurkish_any (s_mahalle item) with
        | Some text => Some (includes text (normalizeTurkish v))
        | None => None
        end
      else Some (strict_eq_value (sfield k item) v))
      (delete_key key (entries f)) = Some b ∧
    (b = true ↔ satisfies_any (setField key [] f) item).
Proof.
  intros Hm.
  set (P := λ e : Key * jsstring,
    e.2 ≠ [] →
    match e.1 with
    | K_mahalle =>
        ∃ text, normalizeTurkish_any (s_mahalle item) = Some text ∧
                Substring (normalizeTurkish e.2) text
    | _ => sfield e.1 item = JString e.2
    end).
  assert (Forall (λ e, (e.1 = K_mahalle → e.2 = [] ∨ isString (s_mahalle item)))
            (delete_key key (entries f))) as Hall.
  { rewrite delete_key_entries.
    destruct key; simpl in Hm;
      repeat (apply Forall_cons; split; [simpl; try discriminate|]);
      try apply Forall_nil_2;
      intros _; (destruct Hm as [Hm|Hm]; [by left | by right]). }
  edestruct (Array_every_Some
    (λ '(k, v),
      if falsy v then Some true
      else if bool_decide (k = K_mahalle) then
        match normalizeTurkish_any (s_mahalle item) with
        | Some text => Some (includes text (normalizeTurkish v))
        | None => None
        end
      else Some (strict_eq_value (sfield k item) v)) P
    (delete_key key (entries f))) as (b & Eb & Hb).
  { eapply Forall_impl; [exact Hall|]. intros [k v] Hkv.
    apply (entry_test_spec item k v Hkv). }
  exists b. split; [exact Eb|]. rewrite Hb.
  rewrite delete_key_entries. unfold satisfies_any, P.
  rewrite forall_Key. unfold satisfiesField_any.
  destruct key; rewrite !Forall_cons, Forall_nil; simpl; tauto.
Qed.

Lemma satisfies_any_ofTyped f r : satisfies_any f (ofTyped r) ↔ satisfies f r.
Proof.
  unfold satisfies_any, satisfies. rewrite !forall_Key.
  unfold satisfiesField_any, satisfiesField. simpl.
  rewrite normalizeTurkish_any_string.
  assert (∀ a b : jsstring, JString a = JString b ↔ a = b) as Hinj
    by (intros a b; split; [by intros [= ->] | by intros ->]).
  rewrite !Hinj.
  assert ((∃ text, Some (normalizeTurkish (mahalle r)) = Some text ∧
             Substring (normalizeTurkish (mahalle f)) text) ↔
          Substring (normalizeTurkish (mahalle f)) (normalizeTurkish (mahalle r)))
    as ->; [|tauto].
  split; [by intros (text & [= <-] & ?) | intros ?; by eexists].
Qed.

Section FacetProperties.
Variable localeCompare_tr : jsstring → jsstring → Z.

(** The options of a key, when no non-string locality meets a locality
    constraint. *)
Lemma getOptions_any_Some base f key :
  mahalle (setField key [] f) = [] ∨ Forall (λ r, isString (s_mahalle r)) base →
  ∃ kept,
    (∀ r, r ∈ kept ↔ r ∈ base ∧ satisfies_any (setField key [] f) r) ∧
    getOptions_any localeCompare_tr base f key =
      Some (Array_sort (λ a b, localeCompare_tr (string_of a) (string_of b))
              (filter (λ val, typeof_string val && negb (strict_eq_value val []))
                 (new_Set (map (sfield key) kept)))).
Proof.
  intros Hm. unfold getOptions_any.
  edestruct (Array_filter_Some
    (λ item,
      Array_every (λ '(k, v),
        if falsy v then Some true
        else if bool_decide (k = K_mahalle) then
          match normalizeTurkish_any (s_mahalle item) with
          | Some text => Some (includes text (normalizeTurkish v))
          | None => None
          end
        else Some (strict_eq_value (sfield k item) v))
        (delete_key key (entries f)))
    (satisfies_any (setField key [] f)) base) as (kept & Ek & _ & Hk).
  { apply Forall_forall. intros r Hr. apply otherFilters_satisfies.
    destruct Hm as [Hm|Hm]; [by left|right].
    rewrite Forall_forall in Hm. by apply Hm. }
  exists kept. split; [exact Hk|]. cbv zeta. by rewrite Ek.
Qed.

Lemma getOptions_any_elem_of base f key options x :
  mahalle (setField key [] f) = [] ∨ Forall (λ r, isString (s_mahalle r)) base →
  getOptions_any localeCompare_tr base f key = Some options →
  x ∈ options ↔
  ∃ v, x = JString v ∧ v ≠ [] ∧
       ∃ r, r ∈ base ∧ satisfies_any (setField key [] f) r ∧ sfield key r = x.
Proof.
  intros Hm Ho. destruct (getOptions_any_Some base f key Hm) as (kept & Hk & E).
  rewrite E in Ho. injection Ho as <-.
  rewrite Array_sort_Permutation, list_elem_of_filter, Is_true_true,
    option_test_spec.
  split.
  - intros [(v & -> & Hv) Hin]. exists v. split; [done|]. split; [done|].
    apply new_Set_string, list_elem_of_In, in_map_iff in Hin as (r & Hr & Hin).
    apply list_elem_of_In, Hk in Hin as [? ?]. by exists r.
  - intros (v & -> & Hv & r & Hr & Hs & Hf). split; [by exists v|].
    apply new_Set_string, list_elem_of_In, in_map_iff. exists r.
    split; [done|]. apply list_elem_of_In, Hk. done.
Qed.

Lemma getOptions_any_NoDup base f key options :
  getOptions_any localeCompare_tr base f key = Some options → NoDup options.
Proof.
  unfold getOptions_any. destruct (Array_filter _ base) as [kept|]; [|done].
  intros [= <-]. rewrite Array_sort_Permutation. apply new_Set_NoDup.
Qed.

(** On well-typed records nothing throws. *)
Lemma getOptions_typed base f key :
  ∃ options,
    getOptions_any localeCompare_tr (map ofTyped base) f key = Some options ∧
    getOptions localeCompare_tr base f key = map string_of options ∧
    Forall (λ x, ∃ v, x = JString v) options.
Proof.
  assert (mahalle (setField key [] f) = [] ∨
          Forall (λ r, isString (s_mahalle r)) (map ofTyped base)) as Hm.
  { right. apply Forall_forall. intros r' Hr'.
    apply list_elem_of_In, in_map_iff in Hr' as (r & <- & _). by eexists. }
  destruct (getOptions_any_Some _ f key Hm) as (kept & _ & E).
  eexists. split; [exact E|]. split; [unfold getOptions; by rewrite E|].
  apply Forall_forall. intros x Hx.
  apply (getOptions_any_elem_of _ _ _ _ _ Hm E) in Hx as (v & -> & _).
  by exists v.
Qed.

Lemma getOptions_elem_of base f key v :
  v ∈ getOptions localeCompare_tr base f key ↔
  v ≠ [] ∧ ∃ r, r ∈ base ∧ satisfies (setField key [] f) r ∧ field key r = v.
Proof.
  destruct (getOptions_typed base f key) as (options & E & -> & Hstr).
  assert (mahalle (setField key [] f) = [] ∨
          Forall (λ r, isString (s_mahalle r)) (map ofTyped base)) as Hm.
  { right. apply Forall_forall. intros r' Hr'.
    apply list_elem_of_In, in_map_iff in Hr' as (r & <- & _). by eexists. }
  rewrite list_elem_of_In, in_map_iff. split.
  - intros (x & <- & Hx). apply list_elem_of_In in Hx.
    apply (getOptions_any_elem_of _ _ _ _ _ Hm E) in Hx
      as (w & -> & Hw & r' & Hr' & Hs & Hf).
    apply list_elem_of_In, in_map_iff in Hr' as (r & <- & Hr).
    split; [done|]. exists r. split; [by apply list_elem_of_In|].
    split; [by apply satisfies_any_ofTyped|].
    destruct key; simpl in *; by injection Hf.
  - intros (Hv & r & Hr & Hs & Hf). exists (JString v). split; [done|].
    apply list_elem_of_In, (getOptions_any_elem_of _ _ _ _ _ Hm E).
    exists v. split; [done|]. split; [done|]. exists (ofTyped r).
    split; [apply list_elem_of_In, in_map; by apply list_elem_of_In|].
    split; [by apply satisfies_any_ofTyped|].
    destruct key; simpl in *; by rewrite Hf.
Qed.

Lemma getOptions_NoDup base f key :
  NoDup (getOptions localeCompare_tr base f key).
Proof.
  destruct (getOptions_typed base f key) as (options & E & -> & Hstr).
  apply NoDup_fmap_2_strong; [|by apply getOptions_any_NoDup in E].
  rewrite Forall_forall in Hstr.
  intros x y [v ->]%Hstr [w ->]%Hstr. simpl. by intros ->.
Qed.

(** C9. The options of a field do not depend on the field's own
    constraint: with every other input equal, any two values of that
    constraint give the same option list.  This holds as well of records
    whose fields hold values of any type, where the function returns the
    same list or throws for both. *)
Theorem getOptions_own_constraint base (f : Filters) key (v1 v2 : jsstring) :
  getOptions localeCompare_tr base (setField key v1 f) key =
  getOptions localeCompare_tr base (setField key v2 f) key ∧
  (∀ st,
     App_options localeCompare_tr
       (setFilters (setField key v1 (filters st)) st) key =
     App_options localeCompare_tr
       (setFilters (setField key v2 (filters st)) st) key) ∧
  (∀ records : list Sanitized,
     getOptions_any localeCompare_tr records (setField key v1 f) key =
     getOptions_any localeCompare_tr records (setField key v2 f) key).
Proof.
  unfold App_options, getOptions, getOptions_any.
  split; [|split; [intros st; simpl | intros records]];
    by rewrite !delete_key_setField.
Qed.

Hypothesis localeCompare_sym :
  ∀ a b, 0 < localeCompare_tr a b → localeCompare_tr b a < 0.
Hypothesis localeCompare_trans :
  ∀ a b c, localeCompare_tr a b ≤ 0 → localeCompare_tr b c ≤ 0 →
           localeCompare_tr a c ≤ 0.


End FacetProperties.

(** ** Pagination *)

Lemma Math_ceil_div_50 n : Math_ceil_div n 50 = - ((- n) / 50).
Proof.
  unfold Math_ceil_div, Qceiling, Qfloor. simpl.
  by rewrite Z.mul_1_r.
Qed.

Lemma totalPages_bounds (l : list YerlesimYeri) :
  50 * (totalPages l - 1) < Z.of_nat (length l) ≤ 50 * totalPages l.
Proof.
  unfold totalPages, ITEMS_PER_PAGE. rewrite Math_ceil_div_50.
  pose proof (Z.div_mod (- Z.of_nat (length l)) 50 ltac:(lia)).
  pose proof (Z.mod_pos_bound (- Z.of_nat (length l)) 50 ltac:(lia)).
  lia.
Qed.

Lemma slice_split {A} (l : list A) (start end_ : Z) :
  ∃ pre post, l = pre ++ slice l start end_ ++ post.
Proof.
  unfold slice.
  set (count := Z.to_nat _). set (k := Z.to_nat _).
  exists (take k l), (drop count (drop k l)).
  by rewrite !take_drop.
Qed.

Lemma slice_from_offset {A} (l : list A) (start count : Z) :
  0 ≤ start → 0 ≤ count →
  slice l start (start + count) =
  take (Z.to_nat count) (drop (Z.to_nat start) l).
Proof.
  intros Hs Hc. unfold slice.
  destruct (Z.ltb_spec start 0) as [?|_]; [lia|].
  destruct (Z.ltb_spec (start + count) 0) as [?|_]; [lia|].
  destruct (decide (Z.of_nat (length l) ≤ start)) as [Hge|Hlt].
  - rewrite !(drop_ge l) by lia. by rewrite !take_nil.
  - rewrite (Z.min_l start) by lia.
    destruct (decide (start + count ≤ Z.of_nat (length l))) as [Hin|Hout].
    + rewrite Z.min_l by lia. f_equal. lia.
    + rewrite Z.min_r by lia.
      rewrite !take_ge; [done| |]; rewrite length_drop; lia.
Qed.

(** C5. With 50 records per page and a page number from 1 on: the number
    of pages is the ceiling of the count over 50 (the least number of
    pages of 50 that hold all the records), 0 for no record; the slice
    shown holds the records from offset [(page - 1) * 50], 50 of them or
    those that remain if fewer; on page 1 these are the first 50 records
    (or all of them); beyond the last page the slice is empty. *)
Theorem currentData_spec (l : list YerlesimYeri) (page : Z) :
  1 ≤ page →
  totalPages l = (Z.of_nat (length l) + 49) / 50 ∧
  50 * (totalPages l - 1) < Z.of_nat (length l) ≤ 50 * totalPages l ∧
  totalPages [] = 0 ∧
  currentData page l = take 50 (drop (Z.to_nat ((page - 1) * 50)) l) ∧
  Z.of_nat (length (currentData page l)) =
    Z.max 0 (Z.min 50 (Z.of_nat (length l) - (page - 1) * 50)) ∧
  currentData 1 l = take 50 l ∧
  (totalPages l < page → currentData page l = []).
Proof.
  intros Hp.
  pose proof (totalPages_bounds l) as Hb.
  assert (∀ p, 1 ≤ p →
    currentData p l = take 50 (drop (Z.to_nat ((p - 1) * 50)) l)) as Hslice.
  { intros p H1. unfold currentData, ITEMS_PER_PAGE.
    by rewrite slice_from_offset by lia. }
  split; [|split; [done|split; [done|split; [by apply Hslice|split; [|split]]]]].
  - pose proof (Z.div_mod (Z.of_nat (length l) + 49) 50 ltac:(lia)).
    pose proof (Z.mod_pos_bound (Z.of_nat (length l) + 49) 50 ltac:(lia)).
    lia.
  - rewrite Hslice by done. rewrite length_take, length_drop. lia.
  - by rewrite Hslice.
  - intros Hlt. rewrite Hslice by done.
    rewrite drop_ge by lia. done.
Qed.

(** C10. For every integer page number, zero and negative ones and those
    beyond the last page included, the slice shown is computed (the
    function is total), is a run of consecutive records of the filtered
    list, and holds at most 50 records. *)
Theorem currentData_safe (l : list YerlesimYeri) (page : Z) :
  (∃ pre post, l = pre ++ currentData page l ++ post) ∧
  Z.of_nat (length (currentData page l)) ≤ ITEMS_PER_PAGE.
Proof.
  split; [apply slice_split|].
  unfold currentData, slice, ITEMS_PER_PAGE. rewrite length_take.
  repeat match goal with
  | |- context [?a <? ?b] => destruct (Z.ltb_spec a b)
  end; lia.
Qed.

(** ** The page number as a state machine *)

Lemma for_range_elem_of a b i : i ∈ for_range a b ↔ a ≤ i ≤ b.
Proof. unfold for_range. rewrite elem_of_seqZ. lia. Qed.


Lemma setSearchTerm_same st : setSearchTerm (searchTerm st) st = st.
Proof. by destruct st. Qed.


(** An event that meets a settled render is handled as [step] says. *)
Lemma stepRender_settled st ev :
  appState (stepRender (settled st) (Act ev)) = step st ev.
Proof.
  unfold stepRender, step, handle. cbn [appState settled].
  change (Render_totalPages (settled st)) with (App_totalPages st).
  by destruct (handleWith (App_totalPages st) ev st) as [st' []].
Qed.

Lemma stepRender_loading r ev :
  loading (appState r) = true → (∀ data, ev ≠ FetchDone data) →
  stepRender r (Act ev) = r.
Proof.
  intros Hl Hev. destruct r as [st d]. simpl in Hl.
  unfold stepRender, handleWith. cbn [appState deferredSearchTerm]. rewrite Hl.
  destruct ev; try done. by destruct (Hev data).
Qed.

(** The effect of a request to the page control once the data are
    there. *)
Lemma stepRender_pageRequest r ev :
  loading (appState r) = false → pageRequest ev →
  stepRender r (Act ev) =
    if Render_totalPages r <=? 1 then r
    else
      mkRender
        match ev with
        | PrevClick =>
            if currentPage (appState r) =? 1 then appState r
            else setCurrentPage (currentPage (appState r) - 1) (appState r)
        | NextClick =>
            if currentPage (appState r) =? Render_totalPages r then appState r
            else setCurrentPage (currentPage (appState r) + 1) (appState r)
        | PageClick index =>
            match getPageNumbers (currentPage (appState r)) (Render_totalPages r)
                    !! index with
            | Some (PageNumber page) => setCurrentPage page (appState r)
            | _ => appState r
            end
        | _ => appState r
        end
        (deferredSearchTerm r).
Proof.
  intros Hl Hev. destruct r as [st d]. simpl in Hl.
  unfold stepRender, handleWith, Pagination, click.
  cbn [appState deferredSearchTerm]. rewrite Hl.
  destruct ev; try done; simpl;
    by destruct (Render_totalPages {| appState := st; deferredSearchTerm := d |} <=? 1).
Qed.



(** * Further properties of the code *)

(** ** The items of the page control: [getPageNumbers] *)

Lemma for_range_3 a : for_range a (a + 2) = [a; a + 1; a + 2].
Proof.
  unfold for_range. replace (a + 2 - a + 1) with 3 by lia.
  cbv [seqZ Z.to_nat Pos.to_nat Pos.iter_op Init.Nat.add seq fmap list_fmap].
  replace (Z.of_nat 0 + a) with a by lia.
  replace (Z.of_nat 1 + a) with (a + 1) by lia.
  replace (Z.of_nat 2 + a) with (a + 2) by lia.
  reflexivity.
Qed.

(** The items, by cases on the number of pages and the current page. *)
Lemma getPageNumbers_cases (cur total : Z) :
  getPageNumbers cur total =
    if total <=? 5 then map PageNumber (for_range 1 total)
    else if cur <=? 3 then
      [PageNumber 1; PageNumber 2; PageNumber 3; PageNumber 4; Ellipsis;
       PageNumber total]
    else if total - 2 <=? cur then
      [PageNumber 1; Ellipsis; PageNumber (total - 3); PageNumber (total - 2);
       PageNumber (total - 1); PageNumber total]
    else
      [PageNumber 1; Ellipsis; PageNumber (cur - 1); PageNumber cur;
       PageNumber (cur + 1); Ellipsis; PageNumber total].
Proof.
  unfold getPageNumbers. cbv zeta.
  destruct (Z.leb_spec total 5) as [H5|H5]; [reflexivity|].
  destruct (Z.leb_spec cur 3) as [H3|H3]; cbv iota beta.
  - rewrite Z.max_l by lia.
    change (for_range 2 4) with [2; 3; 4].
    destruct (Z.ltb_spec 2 2); [lia|].
    destruct (Z.ltb_spec 4 (total - 1)); [|lia]. reflexivity.
  - destruct (Z.leb_spec (total - 2) cur) as [He|He]; cbv iota beta.
    + rewrite Z.min_l by lia.
      replace (total - 1) with (total - 3 + 2) at 1 by lia.
      rewrite for_range_3.
      destruct (Z.ltb_spec 2 (total - 3)); [|lia].
      rewrite Z.ltb_irrefl.
      replace (total - 3 + 1) with (total - 2) by lia.
      replace (total - 3 + 2) with (total - 1) by lia.
      reflexivity.
    + rewrite Z.max_r, Z.min_r by lia.
      replace (cur + 1) with (cur - 1 + 2) at 1 by lia.
      rewrite for_range_3.
      destruct (Z.ltb_spec 2 (cur - 1)); [|lia].
      destruct (Z.ltb_spec (cur + 1) (total - 1)); [|lia].
      replace (cur - 1 + 1) with cur by lia.
      replace (cur - 1 + 2) with (cur + 1) by lia.
      reflexivity.
Qed.

(** X1. With at most five pages the control shows every page.  With
    more, it shows one of three layouts, fixed by the current page: the
    first four pages, an ellipsis and the last page; or the first page,
    an ellipsis and the last four pages; or the first page, an ellipsis,
    the current page with its two neighbours, an ellipsis and the last
    page. *)
Theorem getPageNumbers_layout (cur total : Z) :
  getPageNumbers cur total =
    if total <=? 5 then map PageNumber (for_range 1 total)
    else if cur <=? 3 then
      [PageNumber 1; PageNumber 2; PageNumber 3; PageNumber 4; Ellipsis;
       PageNumber total]
    else if total - 2 <=? cur then
      [PageNumber 1; Ellipsis; PageNumber (total - 3); PageNumber (total - 2);
       PageNumber (total - 1); PageNumber total]
    else
      [PageNumber 1; Ellipsis; PageNumber (cur - 1); PageNumber cur;
       PageNumber (cur + 1); Ellipsis; PageNumber total].
Proof. apply getPageNumbers_cases. Qed.

Lemma pageNumbersOf_numbers (ns : list Z) : pageNumbersOf (map PageNumber ns) = ns.
Proof.
  unfold pageNumbersOf. induction ns as [|n ns IH]; [done|].
  cbn. by rewrite IH.
Qed.

Lemma elem_of_numbers (it : PageItem) (ns : list Z) :
  it ∈ map PageNumber ns ↔ ∃ n, it = PageNumber n ∧ n ∈ ns.
Proof.
  rewrite list_elem_of_In, in_map_iff. split.
  - intros (n & <- & Hn). exists n. by rewrite list_elem_of_In.
  - intros (n & -> & Hn). exists n. by rewrite <- list_elem_of_In.
Qed.

Lemma for_range_small total :
  total ≤ 5 →
  for_range 1 total ∈ [[]; [1]; [1; 2]; [1; 2; 3]; [1; 2; 3; 4]; [1; 2; 3; 4; 5]].
Proof.
  intros H. unfold for_range.
  destruct (decide (total ≤ 0)) as [H0|H0].
  - rewrite seqZ_nil by lia. apply list_elem_of_here.
  - assert (total = 1 ∨ total = 2 ∨ total = 3 ∨ total = 4 ∨ total = 5)
      as [->|[->|[->|[->| ->]]]] by lia;
      repeat first [apply list_elem_of_here | apply list_elem_of_further].
Qed.

(** X2. With the current page among the pages, the control always
    offers the first page, the last page, the current page and the pages
    next to it. *)
Theorem getPageNumbers_offers (cur total page : Z) :
  1 ≤ cur ≤ total → 1 ≤ page ≤ total →
  page = 1 ∨ page = total ∨ cur - 1 ≤ page ≤ cur + 1 →
  PageNumber page ∈ getPageNumbers cur total.
Proof.
  intros Hc Hp Hwhich. rewrite getPageNumbers_cases.
  destruct (Z.leb_spec total 5) as [H5|H5].
  - apply elem_of_numbers. exists page. split; [done|].
    apply for_range_elem_of. lia.
  - destruct (Z.leb_spec cur 3) as [H3|H3];
      [|destruct (Z.leb_spec (total - 2) cur) as [He|He]];
      rewrite !elem_of_cons, elem_of_nil.
    + assert (page = 1 ∨ page = 2 ∨ page = 3 ∨ page = 4 ∨ page = total)
        as [->|[->|[->|[->| ->]]]] by lia; tauto.
    + assert (page = 1 ∨ page = total - 3 ∨ page = total - 2 ∨
              page = total - 1 ∨ page = total)
        as [->|[->|[->|[->| ->]]]] by lia; tauto.
    + assert (page = 1 ∨ page = cur - 1 ∨ page = cur ∨
              page = cur + 1 ∨ page = total)
        as [->|[->|[->|[->| ->]]]] by lia; tauto.
Qed.

(** X3. The page numbers of the control are in strictly ascending order,
    so that no page is offered twice, and the control holds an ellipsis
    exactly when some page is not offered. *)
Theorem getPageNumbers_ellipsis (cur total : Z) :
  StronglySorted Z.lt (pageNumbersOf (getPageNumbers cur total)) ∧
  (Ellipsis ∈ getPageNumbers cur total ↔
   ∃ page, 1 ≤ page ≤ total ∧ PageNumber page ∉ getPageNumbers cur total).
Proof.
  rewrite getPageNumbers_cases.
  destruct (Z.leb_spec total 5) as [H5|H5].
  - split.
    + rewrite pageNumbersOf_numbers.
      pose proof (for_range_small total H5) as H.
      repeat (apply elem_of_cons in H as [->|H];
              [repeat constructor; lia|]).
      by apply elem_of_nil in H.
    + split.
      * intros (n & [=] & _)%elem_of_numbers.
      * intros (page & Hp & Hn). destruct Hn.
        apply elem_of_numbers. exists page. split; [done|].
        by apply for_range_elem_of.
  - destruct (Z.leb_spec cur 3) as [H3|H3];
      [|destruct (Z.leb_spec (total - 2) cur) as [He|He]].
    + split; [cbn; repeat constructor; lia|].
      split; [intros _|intros _; rewrite !elem_of_cons; tauto].
      exists 5. split; [lia|].
      rewrite !elem_of_cons, elem_of_nil.
      intros [[=]|[[=]|[[=]|[[=]|[[=]|[[=]|[]]]]]]]; lia.
    + split; [cbn; repeat constructor; lia|].
      split; [intros _|intros _; rewrite !elem_of_cons; tauto].
      exists 2. split; [lia|].
      rewrite !elem_of_cons, elem_of_nil.
      intros [[=]|[[=]|[[=]|[[=]|[[=]|[[=]|[]]]]]]]; lia.
    + split; [cbn; repeat constructor; lia|].
      split; [intros _|intros _; rewrite !elem_of_cons; tauto].
      exists 2. split; [lia|].
      rewrite !elem_of_cons, elem_of_nil.
      intros [[=]|[[=]|[[=]|[[=]|[[=]|[[=]|[[=]|[]]]]]]]]; lia.
Qed.

(** ** Pages and the page number *)

Lemma currentData_from_offset page (l : list YerlesimYeri) :
  1 ≤ page →
  currentData page l = take 50 (drop (Z.to_nat ((page - 1) * 50)) l).
Proof.
  intros Hp. unfold currentData, ITEMS_PER_PAGE.
  by rewrite slice_from_offset by lia.
Qed.

Lemma totalPages_nil : totalPages [] = 0.
Proof. reflexivity. Qed.

Lemma stepRender_pageRequest_data r ev :
  pageRequest ev →
  yerlesimVerileri (appState (stepRender r (Act ev))) = yerlesimVerileri (appState r) ∧
  searchTerm (appState (stepRender r (Act ev))) = searchTerm (appState r) ∧
  filters (appState (stepRender r (Act ev))) = filters (appState r) ∧
  loading (appState (stepRender r (Act ev))) = loading (appState r) ∧
  deferredSearchTerm (stepRender r (Act ev)) = deferredSearchTerm r.
Proof.
  intros Hev. destruct (loading (appState r)) eqn:Hl.
  - rewrite stepRender_loading; [by rewrite Hl|done|]. by destruct ev.
  - rewrite stepRender_pageRequest by done.
    destruct (Render_totalPages r <=? 1); [by rewrite Hl|].
    destruct ev; try done; cbn [appState deferredSearchTerm].
    + by destruct (currentPage (appState r) =? 1).
    + by destruct (currentPage (appState r) =? Render_totalPages r).
    + by destruct (_ !! index) as [[page|]|].
Qed.

Lemma stepRender_pageRequest_totalPages r ev :
  pageRequest ev → Render_totalPages (stepRender r (Act ev)) = Render_totalPages r.
Proof.
  intros Hev.
  destruct (stepRender_pageRequest_data r ev Hev) as (E1 & E2 & E3 & _ & E5).
  unfold Render_totalPages, Render_filteredData, Render_searchedData.
  by rewrite E1, E3, E5.
Qed.

(** X4. In a render whose page is within 1 and the number of pages, [n]
    clicks on "next" lead to page [min (page + n) totalPages] and [n]
    clicks on "previous" to page [max (page - n) 1].  So every page can
    be reached, and none beyond. *)
Theorem repeated_clicks (r : Render) (n : nat) :
  loading (appState r) = false →
  1 ≤ currentPage (appState r) ≤ Render_totalPages r →
  currentPage (appState (runRender r (replicate n (Act NextClick)))) =
    Z.min (currentPage (appState r) + Z.of_nat n) (Render_totalPages r) ∧
  currentPage (appState (runRender r (replicate n (Act PrevClick)))) =
    Z.max (currentPage (appState r) - Z.of_nat n) 1.
Proof.
  revert r. induction n as [|n IH]; intros r Hl Hin; [simpl; lia|].
  assert (∀ ev, pageRequest ev →
            loading (appState (stepRender r (Act ev))) = false) as Hl'.
  { intros ev Hev.
    destruct (stepRender_pageRequest_data r ev Hev) as (_ & _ & _ & -> & _).
    done. }
  split; cbn [replicate runRender fold_left].
  - destruct (IH (stepRender r (Act NextClick))) as [E _].
    + by apply Hl'.
    + rewrite stepRender_pageRequest_totalPages by done.
      rewrite stepRender_pageRequest by done.
      destruct (Z.leb_spec (Render_totalPages r) 1); [done|].
      cbn [appState].
      destruct (Z.eqb_spec (currentPage (appState r)) (Render_totalPages r));
        simpl; lia.
    + unfold runRender in E. rewrite E.
      rewrite stepRender_pageRequest_totalPages by done.
      rewrite stepRender_pageRequest by done.
      destruct (Z.leb_spec (Render_totalPages r) 1); [lia|].
      cbn [appState].
      destruct (Z.eqb_spec (currentPage (appState r)) (Render_totalPages r));
        simpl; lia.
  - destruct (IH (stepRender r (Act PrevClick))) as [_ E].
    + by apply Hl'.
    + rewrite stepRender_pageRequest_totalPages by done.
      rewrite stepRender_pageRequest by done.
      destruct (Z.leb_spec (Render_totalPages r) 1); [done|].
      cbn [appState].
      destruct (Z.eqb_spec (currentPage (appState r)) 1); simpl; lia.
    + unfold runRender in E. rewrite E.
      rewrite stepRender_pageRequest by done.
      destruct (Z.leb_spec (Render_totalPages r) 1); [lia|].
      cbn [appState].
      destruct (Z.eqb_spec (currentPage (appState r)) 1); simpl; lia.
Qed.

(** X5. From page 1 on, the page shown holds a record exactly when the
    page number is at most the number of pages: a render whose page is
    within the pages never shows an empty page, and one whose page is
    beyond them shows none of the results. *)
Theorem shown_page_nonempty (r : Render) :
  1 ≤ currentPage (appState r) →
  (Render_currentData r ≠ [] ↔ currentPage (appState r) ≤ Render_totalPages r).
Proof.
  intros H1. unfold Render_currentData, Render_totalPages.
  pose proof (totalPages_bounds (Render_filteredData r)) as Hb.
  rewrite currentData_from_offset by done.
  set (l := Render_filteredData r) in *.
  set (page := currentPage (appState r)) in *.
  assert (length (take 50 (drop (Z.to_nat ((page - 1) * 50)) l)) =
          Nat.min 50 (length l - Z.to_nat ((page - 1) * 50))) as Hlen
    by by rewrite length_take, length_drop.
  split.
  - intros Hne. destruct (take 50 _) eqn:E; [done|]. cbn [length] in Hlen. lia.
  - intros Hle E. rewrite E in Hlen. cbn [length] in Hlen. lia.
Qed.

Lemma chunks_concat {A} (l : list A) (n : nat) :
  (length l ≤ 50 * n)%nat →
  concat (map (λ i, take 50 (drop (50 * i) l)) (seq 0 n)) = l.
Proof.
  revert l. induction n as [|n IH]; intros l Hl.
  - destruct l; [done|simpl in Hl; lia].
  - change (seq 0 (S n)) with (0%nat :: seq 1 n). rewrite <- seq_shift.
    cbn [map concat]. rewrite map_map, Nat.mul_0_r, drop_0.
    transitivity (take 50 l ++ drop 50 l); [|apply take_drop]. f_equal.
    etrans; [|apply (IH (drop 50 l)); rewrite length_drop; lia].
    f_equal. apply map_ext. intros i.
    rewrite drop_drop. do 2 f_equal. lia.
Qed.

(** X6. The pages 1 to [totalPages] tile the list: put end to end they
    give back the filtered records, each once and in order. *)
Theorem pages_tile (l : list YerlesimYeri) : concat (allPages l) = l.
Proof.
  unfold allPages, for_range, seqZ.
  pose proof (totalPages_bounds l) as Hb.
  replace (totalPages l - 1 + 1) with (totalPages l) by lia.
  change (?f <$> ?x) with (map f x). rewrite map_map.
  rewrite <- (chunks_concat l (Z.to_nat (totalPages l))) at 2 by lia.
  f_equal. apply map_ext_in. intros i Hi%in_seq.
  rewrite currentData_from_offset by lia. do 2 f_equal. lia.
Qed.

(** X7. Whatever the state, the records shown are records of the data
    set, in the order of the data set: a sublist of it of at most 50
    records. *)
Theorem shown_from_data (st : AppState) :
  sublist (App_currentData st) (yerlesimVerileri st) ∧
  (length (App_currentData st) ≤ 50)%nat.
Proof.
  unfold App_currentData, App_filteredData, App_searchedData.
  unfold currentData, slice. split.
  - etrans; [apply sublist_take|]. etrans; [apply sublist_drop|].
    rewrite filteredData_filter. etrans; [apply sublist_filter|].
    unfold searchedData. destruct (falsy (searchTerm st)); [done|].
    apply sublist_filter.
  - rewrite length_take. unfold ITEMS_PER_PAGE.
    repeat match goal with
    | |- context [?a <? ?b] => destruct (Z.ltb_spec a b)
    end; lia.
Qed.

(** ** Clearing the search and the filters *)



(** ** The facets and the filters *)

Lemma field_setField key v f : field key (setField key v f) = v.
Proof. by destruct key. Qed.

Lemma field_setField_ne key k v f : k ≠ key → field k (setField key v f) = field k f.
Proof. by destruct key, k. Qed.

Lemma Substring_refl s : Substring s s.
Proof. exists [], []. by rewrite app_nil_r. Qed.

(** A filter state is satisfied when its other constraints are and the
    constraint of the key is. *)
Lemma satisfies_setField key v f r :
  satisfies (setField key v f) r ↔
  satisfies (setField key [] f) r ∧ satisfiesField (setField key v f) r key.
Proof.
  unfold satisfies. split.
  - intros H. split; [|apply H]. intros k. specialize (H k).
    destruct (decide (k = key)) as [->|Hk].
    + unfold satisfiesField. rewrite field_setField. done.
    + unfold satisfiesField in *.
      rewrite field_setField_ne in * by done.
      pose proof (field_setField_ne key K_mahalle v f) as Em.
      pose proof (field_setField_ne key K_mahalle [] f) as Em'.
      destruct k; try done. simpl in Em, Em'. by rewrite Em', <- Em.
  - intros [H Hkey] k. specialize (H k).
    destruct (decide (k = key)) as [->|Hk]; [done|].
    unfold satisfiesField in *.
    rewrite field_setField_ne in * by done.
    pose proof (field_setField_ne key K_mahalle v f) as Em.
    pose proof (field_setField_ne key K_mahalle [] f) as Em'.
    destruct k; try done. simpl in Em, Em'. by rewrite Em, <- Em'.
Qed.

Lemma nonempty_elem_of {A} (l : list A) : l ≠ [] ↔ ∃ x, x ∈ l.
Proof.
  destruct l as [|x l].
  - split; [done|]. intros [x Hx]. by apply elem_of_nil in Hx.
  - split; [|done]. intros _. exists x. apply list_elem_of_here.
Qed.

Section FacetsAndFilters.
Variable localeCompare_tr : jsstring → jsstring → Z.

(** X9. Choosing an option a facet offers never empties the result:
    some base record passes the filters with that value set.  For the
    exact-match keys the converse holds: a non-empty value that leaves
    some record is offered. *)
Theorem option_gives_results base (f : Filters) key (v : jsstring) :
  (v ∈ getOptions localeCompare_tr base f key →
     filteredData base (setField key v f) ≠ []) ∧
  (key ≠ K_mahalle → v ≠ [] →
     filteredData base (setField key v f) ≠ [] →
     v ∈ getOptions localeCompare_tr base f key).
Proof.
  split.
  - intros (Hv & r & Hr & Hs & Hk)%getOptions_elem_of.
    apply nonempty_elem_of. exists r.
    rewrite filteredData_filter, list_elem_of_filter. split; [|done].
    rewrite satisfies_setField. split; [done|].
    unfold satisfiesField. rewrite field_setField. intros _.
    destruct key; try done. simpl in *. subst v. apply Substring_refl.
  - intros Hkey Hv (r & Hr)%nonempty_elem_of.
    rewrite filteredData_filter, list_elem_of_filter in Hr.
    destruct Hr as [Hs Hr].
    apply getOptions_elem_of.
    split; [done|]. exists r. split; [done|].
    apply satisfies_setField in Hs as [Hs Hk]. split; [done|].
    unfold satisfiesField in Hk. rewrite field_setField in Hk.
    destruct key; try done; by apply Hk.
Qed.

(** X10. Setting a constraint on a field that had none only removes
    options from the facets: every option offered afterwards was offered
    before. *)
Theorem constraint_narrows_options base (f : Filters) key k (c : jsstring) :
  field k f = [] →
  getOptions localeCompare_tr base (setField k c f) key ⊆
  getOptions localeCompare_tr base f key.
Proof.
  intros Hk v. rewrite !getOptions_elem_of.
  intros (Hv & r & Hr & Hs & Hf). split; [done|]. exists r.
  split; [done|]. split; [|done].
  intros k'. specialize (Hs k'). unfold satisfiesField in *.
  destruct f as [f1 f2 f3 f4 f5].
  destruct key, k, k'; simpl in *; subst; try done; auto.
Qed.

(** X11. While some record passes the filters, the value selected for an
    exact-match key is among the options of that key. *)
Theorem selected_value_offered base (f : Filters) key :
  key ≠ K_mahalle → field key f ≠ [] → filteredData base f ≠ [] →
  field key f ∈ getOptions localeCompare_tr base f key.
Proof.
  intros Hkey Hv (r & Hr)%nonempty_elem_of.
  rewrite filteredData_filter, list_elem_of_filter in Hr.
  destruct Hr as [Hs Hr].
  apply getOptions_elem_of.
  split; [done|]. exists r. split; [done|].
  assert (setField key (field key f) f = f) as E by by destruct f, key.
  rewrite <- E in Hs. apply satisfies_setField in Hs as [Hs Hk].
  split; [done|].
  unfold satisfiesField in Hk. rewrite field_setField in Hk.
  destruct key; try done; by apply Hk.
Qed.
End FacetsAndFilters.

(** ** Search *)

(** X12. Search and column filters commute: filtering the searched
    records gives the same list as searching the filtered records. *)
Theorem search_filter_commute (D : list YerlesimYeri) (q : jsstring) (f : Filters) :
  filteredData (searchedData D q) f = searchedData (filteredData D f) q.
Proof.
  destruct (decide (q = [])) as [->|Hq]; [done|].
  rewrite !searchedData_filter, !filteredData_filter by done.
  rewrite !list_filter_filter. apply list_filter_iff. intros r. tauto.
Qed.

(** X14. Two queries with the same normal form find the same records:
    the search does not see case or the folded diacritics of the
    query. *)
Theorem search_by_normal_form (D : list YerlesimYeri) (q1 q2 : jsstring) :
  normalizeTurkish q1 = normalizeTurkish q2 →
  searchedData D q1 = searchedData D q2.
Proof.
  intros E. destruct (decide (q1 = [])) as [->|H1].
  - symmetry in E. apply normalizeTurkish_nil_inv in E as ->. done.
  - assert (q2 ≠ []) as H2.
    { intros ->. by apply normalizeTurkish_nil_inv in E. }
    rewrite !searchedData_filter by done.
    apply list_filter_iff. intros r. unfold searchMatch. by rewrite E.
Qed.

(** ** The normaliser *)

Section NormalForms.
Hypothesis facts : UnicodeFacts T.


(** X16. The strings the normaliser leaves as they are are exactly those
    that lower-casing leaves as they are and that hold none of ğ, ü, ş,
    ı, ö, ç. *)
Theorem normalizeTurkish_fixed_points (s : jsstring) :
  normalizeTurkish s = s ↔
  toLocaleLowerCase_tr s = s ∧
  Forall (λ c, c ∉ [U.g_breve; U.u_uml; U.s_ced; U.i_dotless; U.o_uml; U.c_ced]) s.
Proof.
  split.
  - intros E. split.
    + rewrite <- E at 1. rewrite (toLocaleLowerCase_normal facts). exact E.
    + rewrite <- E.
      eapply Forall_impl; [apply (normalizeTurkish_units facts)|].
      intros c [_ Hf]. by apply foldCode_fixed_iff in Hf.
  - intros [E H]. rewrite normalizeTurkish_unfold, E. clear E.
    induction H as [|c l Hc _ IH]; [done|]. cbn [map].
    apply foldCode_fixed_iff in Hc. by rewrite Hc, IH.
Qed.
End NormalForms.

(** ** Loading the data *)

Lemma sanitize_null : sanitize JNull = None.
Proof. reflexivity. Qed.

Lemma sanitize_not_null item :
  item ≠ JNull →
  sanitize item =
    Some (mkSanitized (orEmpty (readField item K_il)) (orEmpty (readField item K_ilce))
            (orEmpty (readField item K_belediye)) (orEmpty (readField item K_mahalle))
            (orEmpty (readField item K_durum))).
Proof. by destruct item. Qed.

Global Instance json_null_dec (v : json) : Decision (v = JNull).
Proof. destruct v; (by left) || (by right). Defined.

Lemma sanitize_Some item rec :
  sanitize item = Some rec ↔
  item ≠ JNull ∧ ∀ k, sfield k rec = orEmpty (readField item k).
Proof.
  split.
  - intros H. destruct (decide (item = JNull)) as [->|Hn]; [done|].
    rewrite sanitize_not_null in H by done. injection H as <-.
    split; [done|]. by intros [].
  - intros [Hn Hk]. rewrite sanitize_not_null by done. f_equal.
    destruct rec. f_equal.
    + by rewrite <- (Hk K_il).
    + by rewrite <- (Hk K_ilce).
    + by rewrite <- (Hk K_belediye).
    + by rewrite <- (Hk K_mahalle).
    + by rewrite <- (Hk K_durum).
Qed.

Lemma tryLoad_Some o data :
  tryLoad o = Some data ↔
  ∃ items, o = Response true (Some (JArray items)) ∧
           Forall2 (λ item rec, sanitize item = Some rec) items data.
Proof.
  split.
  - destruct o as [|[] [[]|]]; try done. simpl.
    intros H%mapM_Some. by exists items.
  - intros (items & -> & H). by apply mapM_Some.
Qed.

Lemma tryLoad_is_Some o :
  is_Some (tryLoad o) ↔
  ∃ items, o = Response true (Some (JArray items)) ∧ JNull ∉ items.
Proof.
  split.
  - intros [data (items & -> & H)%tryLoad_Some]. exists items. split; [done|].
    intros Hin. apply list_elem_of_lookup in Hin as [i Hi].
    destruct (Forall2_lookup_l _ _ _ _ _ H Hi) as (rec & _ & Hrec).
    by rewrite sanitize_null in Hrec.
  - intros (items & -> & Hn). simpl. apply mapM_is_Some.
    apply Forall_forall. intros item Hin. simpl.
    rewrite sanitize_not_null; [done|]. by intros ->.
Qed.

Lemma loaded_from_items (sampleData : list YerlesimYeri) (items : list json) :
  JNull ∉ items →
  Forall2 (λ item rec, ∀ k, sfield k rec = orEmpty (readField item k))
    items (loadedData (fetchData sampleData (Response true (Some (JArray items))))).
Proof.
  intros Hn.
  assert (is_Some (tryLoad (Response true (Some (JArray items))))) as [data Hd].
  { apply tryLoad_is_Some. by exists items. }
  unfold fetchData. rewrite Hd. simpl.
  apply tryLoad_Some in Hd as (items' & [= <-] & H).
  eapply Forall2_impl; [exact H|].
  intros item rec Hs. by apply sanitize_Some in Hs as [_ Hs].
Qed.

Lemma Forall2_Forall_iff {A B} (R : A → B → Prop) (P : A → Prop) (Q : B → Prop)
    (l : list A) (k : list B) :
  (∀ x y, R x y → (P x ↔ Q y)) → Forall2 R l k → (Forall P l ↔ Forall Q k).
Proof.
  intros HR. induction 1 as [|x y l k Hxy _ IH].
  - split; constructor.
  - rewrite !Forall_cons, IH, (HR x y Hxy). done.
Qed.

(** X17. The application falls back to the sample data exactly when the
    fetch fails, the response is not [ok], its body is not JSON, the JSON
    is not an array, or an item of the array is [null]; then the records
    are the sample records.  In every case loading ends. *)
Theorem fetchData_fallback (sampleData : list YerlesimYeri) (o : FetchOutcome) :
  (usingSampleData (fetchData sampleData o) = false ↔
     ∃ items, o = Response true (Some (JArray items)) ∧ JNull ∉ items) ∧
  (usingSampleData (fetchData sampleData o) = true →
     loadedData (fetchData sampleData o) = map ofTyped sampleData) ∧
  stillLoading (fetchData sampleData o) = false.
Proof.
  rewrite <- tryLoad_is_Some. unfold fetchData.
  destruct (tryLoad o) as [data|]; simpl.
  - split; [|done]. split; [by eauto|done].
  - split; [|done]. split; [done|]. by intros [? ?].
Qed.

Lemma orEmpty_cases x : orEmpty x = JString [] ∨ truthy (orEmpty x) = true.
Proof.
  destruct x as [v|]; simpl; [|by left].
  destruct (truthy v) eqn:E; [by right | by left].
Qed.

(** X18. When the data are loaded from an array without [null], there
    is one record per item, in order, and each field holds the item's
    value for that key when the value is truthy and the empty string
    otherwise.  Whatever the outcome of the fetch, no field of a record
    is [null], absent or another falsy value than the empty string. *)
Theorem loaded_fields (sampleData : list YerlesimYeri) (o : FetchOutcome) :
  (∀ items, o = Response true (Some (JArray items)) → JNull ∉ items →
     Forall2 (λ item rec, ∀ k, sfield k rec = orEmpty (readField item k))
       items (loadedData (fetchData sampleData o))) ∧
  Forall (λ rec, ∀ k, sfield k rec = JString [] ∨ truthy (sfield k rec) = true)
    (loadedData (fetchData sampleData o)).
Proof.
  split.
  - intros items -> Hn. by apply loaded_from_items.
  - unfold fetchData. destruct (tryLoad o) as [data|] eqn:Hd; simpl.
    + apply tryLoad_Some in Hd as (items & -> & H).
      apply Forall_forall. intros rec Hin.
      apply list_elem_of_lookup in Hin as [i Hi].
      destruct (Forall2_lookup_r _ _ _ _ _ H Hi) as (item & _ & Hs).
      apply sanitize_Some in Hs as [_ Hs]. intros k. rewrite Hs.
      apply orEmpty_cases.
    + apply Forall_forall. intros rec Hin.
      apply list_elem_of_In, in_map_iff in Hin as (r & <- & _).
      intros k.
      assert (sfield k (ofTyped r) = JString (field k r)) as -> by by destruct k.
      destruct (field k r); [by left | by right].
Qed.

Lemma isString_orEmpty x :
  isString (orEmpty x) ↔ (∀ v, x = Some v → truthy v = true → isString v).
Proof.
  destruct x as [v|]; simpl.
  - destruct (truthy v) eqn:E.
    + split; [by intros H ? [= <-] _ | by intros H; apply H].
    + split; [intros _ ? [= <-] ?; congruence | by intros _; exists []].
  - split; [done | by intros _; exists []].
Qed.

(** X19. The loaded records are well typed, every field a string,
    exactly when every truthy value the items hold under the five keys is
    a string: a truthy value of another type (a non-zero number, [true],
    an array, an object) is kept as it is. *)
Theorem loaded_well_typed (sampleData : list YerlesimYeri) (items : list json) :
  JNull ∉ items →
  (Forall (λ rec, ∀ k, isString (sfield k rec))
     (loadedData (fetchData sampleData (Response true (Some (JArray items))))) ↔
   Forall (λ item, ∀ k v, readField item k = Some v → truthy v = true → isString v)
     items).
Proof.
  intros Hn. symmetry.
  eapply Forall2_Forall_iff; [|exact (loaded_from_items sampleData items Hn)].
  intros item rec Hk. simpl in Hk. split.
  - intros H k. rewrite Hk. apply isString_orEmpty. apply H.
  - intros H k v. apply isString_orEmpty. rewrite <- Hk. apply H.
Qed.

Lemma sanitize_toJson r : sanitize (toJson r) = Some (ofTyped r).
Proof.
  destruct r as [a b c d e]. unfold toJson, ofTyped. cbn.
  by destruct a, b, c, d, e.
Qed.

(** X20. A data file that holds well-typed records loads back as those
    records: the same records, in the same order, and no fallback. *)
Theorem fetchData_round_trip (sampleData rs : list YerlesimYeri) :
  fetchData sampleData (Response true (Some (JArray (map toJson rs)))) =
  mkLoaded (map ofTyped rs) false false.
Proof.
  unfold fetchData.
  assert (tryLoad (Response true (Some (JArray (map toJson rs)))) =
          Some (map ofTyped rs)) as ->; [|done].
  apply tryLoad_Some. eexists. split; [done|].
  induction rs as [|r rs IH]; simpl; constructor; [apply sanitize_toJson|done].
Qed.

End Runtime.

(** * The theorems at concrete inputs *)

(** ** The sample character data *)

Lemma sampleLower_outside c : c < 0 ∨ 0x500 ≤ c → sampleLower c = c.
Proof.
  intros H. unfold sampleLower, between.
  repeat match goal with
  | |- context [?a <=? ?b] => destruct (Z.leb_spec a b); simpl
  end; try lia; apply simpleLower_outside; lia.
Qed.

Lemma sampleLower_table :
  forallb (λ c,
    (sampleLower (sampleLower c) =? sampleLower c)
    && (sampleLower c <? 0x600)
    && implb (c <=? 0x17F) (sampleLower c =? simpleLower c))
    (seqZ 0 0x500) = true.
Proof. vm_compute. reflexivity. Qed.

Lemma sampleLower_inside c :
  0 ≤ c < 0x500 →
  sampleLower (sampleLower c) = sampleLower c ∧
  sampleLower c < 0x600 ∧
  (c ≤ 0x17F → sampleLower c = simpleLower c).
Proof.
  intros Hc. pose proof sampleLower_table as Tb.
  rewrite forallb_forall in Tb. specialize (Tb c).
  rewrite <- list_elem_of_In, elem_of_seqZ in Tb. specialize (Tb ltac:(lia)).
  apply andb_true_iff in Tb as [Tb H3]. apply andb_true_iff in Tb as [H1 H2].
  apply Z.eqb_eq in H1. apply Z.ltb_lt in H2.
  split; [done|]. split; [done|]. intros Hle.
  apply Z.leb_le in Hle. rewrite Hle in H3. by apply Z.eqb_eq.
Qed.

Lemma surrogate_range c : isSurrogate c = true ↔ 0xD800 ≤ c ≤ 0xDFFF.
Proof. unfold isSurrogate, between. rewrite andb_true_iff, !Z.leb_le. done. Qed.

Lemma sampleUnicode_facts : UnicodeFacts sampleUnicode.
Proof.
  split; cbn [lowercaseOf otherAccentOf sampleUnicode].
  - intros c Hc. apply sampleLower_inside; lia.
  - intros c. destruct (decide (0 ≤ c < 0x500)) as [Hc|Hc].
    + by apply sampleLower_inside.
    + by rewrite !(sampleLower_outside c) by lia.
  - reflexivity.
  - reflexivity.
  - intros c Hc%surrogate_range. split; [apply sampleLower_outside; lia|].
    unfold sampleOtherAccent, between.
    destruct (Z.leb_spec c 0x36F); [lia|].
    destruct (Z.leb_spec c 0x5BD); [lia|].
    by rewrite !andb_false_r.
  - intros c Hc. destruct (decide (0 ≤ c < 0x500)) as [Hr|Hr].
    + apply surrogate_range in Hc.
      destruct (sampleLower_inside c Hr) as (_ & Hlt & _). lia.
    + by rewrite sampleLower_outside in Hc by lia.
Qed.

(** ** The claims *)

Lemma normalizeTurkish_spec_witness :
  UnicodeFacts sampleUnicode ∧
  (∀ text, normalizeTurkish sampleUnicode text =
           map foldLetter (toLocaleLowerCase_tr sampleUnicode text)) ∧
  Forall (λ p, normalizeTurkish sampleUnicode [p.1] = [p.2]) foldTable ∧
  normalizeTurkish sampleUnicode str_Istanbul_dotted =
    normalizeTurkish sampleUnicode str_istanbul ∧
  normalizeTurkish sampleUnicode str_istanbul =
    normalizeTurkish sampleUnicode str_ISTANBUL_dotted ∧
  normalizeTurkish sampleUnicode [] = [] ∧
  (∀ v, truthy v = false → normalizeTurkish_any sampleUnicode v = Some []) ∧
  (∀ s, normalizeTurkish_any sampleUnicode (JString s) =
        Some (normalizeTurkish sampleUnicode s)).
Proof.
  exact (conj sampleUnicode_facts
           (normalizeTurkish_spec sampleUnicode sampleUnicode_facts)).
Defined.

Lemma normalizeTurkish_idempotent_witness :
  UnicodeFacts sampleUnicode ∧
  (∀ x, normalizeTurkish sampleUnicode (normalizeTurkish sampleUnicode x) =
        normalizeTurkish sampleUnicode x) ∧
  normalizeTurkish sampleUnicode [] = [].
Proof.
  exact (conj sampleUnicode_facts
           (normalizeTurkish_idempotent sampleUnicode sampleUnicode_facts)).
Defined.




Lemma currentData_spec_witness :
  1 ≤ 3 ∧
  totalPages sample120 = (Z.of_nat (length sample120) + 49) / 50 ∧
  50 * (totalPages sample120 - 1) < Z.of_nat (length sample120)
    ≤ 50 * totalPages sample120 ∧
  totalPages [] = 0 ∧
  currentData 3 sample120 = take 50 (drop (Z.to_nat ((3 - 1) * 50)) sample120) ∧
  Z.of_nat (length (currentData 3 sample120)) =
    Z.max 0 (Z.min 50 (Z.of_nat (length sample120) - (3 - 1) * 50)) ∧
  currentData 1 sample120 = take 50 sample120 ∧
  (totalPages sample120 < 3 → currentData 3 sample120 = []).
Proof.
  split; [lia|]. apply (currentData_spec sample120 3). lia.
Defined.

Lemma filteredData_compose_witness :
  disjointFilters (setField K_il (str [0x61]) noFilters)
    (setField K_durum (str [0x6B]) noFilters) ∧
  filteredData sampleUnicode sampleRecords noFilters = sampleRecords ∧
  filteredData sampleUnicode
    (filteredData sampleUnicode sampleRecords (setField K_il (str [0x61]) noFilters))
    (setField K_durum (str [0x6B]) noFilters) =
  filteredData sampleUnicode sampleRecords
    (unionFilters (setField K_il (str [0x61]) noFilters)
       (setField K_durum (str [0x6B]) noFilters)).
Proof.
  assert (disjointFilters (setField K_il (str [0x61]) noFilters)
            (setField K_durum (str [0x6B]) noFilters)) as Hd.
  { intros k. destruct k; simpl; auto. }
  split; [exact Hd|].
  exact (filteredData_compose sampleUnicode sampleRecords _ _ Hd).
Defined.



(** The pipeline on the sample data: the page moves as the theorems say,
    and the end-to-end scenario of 120 records gives 40 records and one
    page for the region of [sample_a]. *)
Example sample_run :
  appState (runRender sampleUnicode initialRender
              [Act (FetchDone sample120); Act NextClick]) = sampleState ∧
  App_totalPages sampleUnicode sampleState = 3 ∧
  currentPage (step sampleUnicode sampleState NextClick) = 3 ∧
  currentPage (step sampleUnicode (step sampleUnicode sampleState NextClick) NextClick)
    = 3 ∧
  currentPage (step sampleUnicode sampleState (FilterChange K_il (str [0x61]))) = 1 ∧
  App_totalPages sampleUnicode
    (step sampleUnicode sampleState (FilterChange K_il (str [0x61]))) = 1 ∧
  length (App_filteredData sampleUnicode
            (step sampleUnicode sampleState (FilterChange K_il (str [0x61]))))
    = 40%nat ∧
  getOptions sampleUnicode codeUnitCompare sampleRecords noFilters K_il =
    [str [0x61]; str [0x62]; str [0x63]] ∧
  getOptions sampleUnicode codeUnitCompare sampleRecords
    (setField K_ilce (str [0x78]) noFilters) K_il = [str [0x61]; str [0x62]] ∧
  searchedData sampleUnicode sampleRecords (str [0x4B; 0x4F; 0x59]) =
    [sample_b; sample_a; sample_b].
Proof. vm_compute. repeat split. Qed.

(** The facets on records that hold values of other types: the number,
    the boolean, the array and the empty string are left out; and with a
    locality constraint set, a locality that is a number makes the
    function throw. *)
Example sample_facets :
  getOptions_any sampleUnicode codeUnitCompare sampleMixed
    (setField K_ilce (str [0x78]) noFilters) K_il =
    Some [JString (str [0x61]); JString (str [0x62])] ∧
  getOptions_any sampleUnicode codeUnitCompare
    [mkSanitized (JString (str [0x61])) (JString []) (JString [])
       (JNumber 5%float) (JString [])]
    (setField K_mahalle str_koy noFilters) K_il = None.
Proof. vm_compute. repeat split. Qed.

(** Lower-casing reads the context: a capital sigma at the end of a word
    becomes the final sigma, so the query ΑΣ does not find the record
    ασα, which the longer query ΑΣΑ finds. *)
Example sample_final_sigma :
  toLocaleLowerCase_tr sampleUnicode [0x391; 0x3A3] = [0x3B1; 0x3C2] ∧
  toLocaleLowerCase_tr sampleUnicode [0x391; 0x3A3; 0x391] = [0x3B1; 0x3C3; 0x3B1] ∧
  searchedData sampleUnicode
    [mkYerlesimYeri [0x3B1; 0x3C3; 0x3B1] [] [] [] []] [0x391; 0x3A3] = [] ∧
  searchedData sampleUnicode
    [mkYerlesimYeri [0x3B1; 0x3C3; 0x3B1] [] [] [] []] [0x391; 0x3A3; 0x391] =
    [mkYerlesimYeri [0x3B1; 0x3C3; 0x3B1] [] [] [] []] ∧
  toLocaleLowerCase_tr sampleUnicode [0x49; 0x5B0; 0x307] = [0x69; 0x5B0] ∧
  toLocaleLowerCase_tr sampleUnicode [0x49; 0x307; 0x307] = [0x69; 0x307] ∧
  toLocaleLowerCase_tr sampleUnicode [0xD83D; 0xDE00; 0x410] = [0xD83D; 0xDE00; 0x430].
Proof. vm_compute. repeat split. Qed.

(** ** The further properties *)

Lemma getPageNumbers_offers_witness :
  1 ≤ 7 ≤ 20 ∧ 1 ≤ 8 ≤ 20 ∧ (8 = 1 ∨ 8 = 20 ∨ 7 - 1 ≤ 8 ≤ 7 + 1) ∧
  PageNumber 8 ∈ getPageNumbers 7 20.
Proof.
  assert (1 ≤ 7 ≤ 20) as H1 by lia.
  assert (1 ≤ 8 ≤ 20) as H2 by lia.
  assert (8 = 1 ∨ 8 = 20 ∨ 7 - 1 ≤ 8 ≤ 7 + 1) as H3 by lia.
  exact (conj H1 (conj H2 (conj H3 (getPageNumbers_offers 7 20 8 H1 H2 H3)))).
Defined.

Lemma sampleState_totalPages :
  Render_totalPages sampleUnicode (settled sampleState) = 3.
Proof. vm_compute. reflexivity. Qed.

Lemma repeated_clicks_witness :
  loading (appState (settled sampleState)) = false ∧
  1 ≤ currentPage (appState (settled sampleState))
    ≤ Render_totalPages sampleUnicode (settled sampleState) ∧
  currentPage
    (appState (runRender sampleUnicode (settled sampleState)
                 (replicate 5 (Act NextClick)))) =
    Z.min (currentPage (appState (settled sampleState)) + Z.of_nat 5)
      (Render_totalPages sampleUnicode (settled sampleState)) ∧
  currentPage
    (appState (runRender sampleUnicode (settled sampleState)
                 (replicate 5 (Act PrevClick)))) =
    Z.max (currentPage (appState (settled sampleState)) - Z.of_nat 5) 1.
Proof.
  assert (loading (appState (settled sampleState)) = false) as Hl by reflexivity.
  assert (1 ≤ currentPage (appState (settled sampleState))
            ≤ Render_totalPages sampleUnicode (settled sampleState)) as Hin.
  { rewrite sampleState_totalPages. simpl. lia. }
  exact (conj Hl (conj Hin
           (repeated_clicks sampleUnicode (settled sampleState) 5 Hl Hin))).
Defined.

Lemma shown_page_nonempty_witness :
  1 ≤ currentPage (appState (settled sampleState)) ∧
  (Render_currentData sampleUnicode (settled sampleState) ≠ [] ↔
   currentPage (appState (settled sampleState))
     ≤ Render_totalPages sampleUnicode (settled sampleState)).
Proof.
  assert (1 ≤ currentPage (appState (settled sampleState))) as H1
    by (simpl; lia).
  exact (conj H1 (shown_page_nonempty sampleUnicode (settled sampleState) H1)).
Defined.

Lemma constraint_narrows_options_witness :
  field K_ilce noFilters = [] ∧
  getOptions sampleUnicode codeUnitCompare sampleRecords
    (setField K_ilce (str [0x78]) noFilters) K_il ⊆
  getOptions sampleUnicode codeUnitCompare sampleRecords noFilters K_il.
Proof.
  split; [reflexivity|].
  apply (constraint_narrows_options sampleUnicode codeUnitCompare sampleRecords
           noFilters K_il K_ilce (str [0x78])).
  reflexivity.
Defined.

Lemma selected_value_offered_witness :
  K_il ≠ K_mahalle ∧
  field K_il (setField K_il (str [0x61]) noFilters) ≠ [] ∧
  filteredData sampleUnicode sampleRecords (setField K_il (str [0x61]) noFilters)
    ≠ [] ∧
  field K_il (setField K_il (str [0x61]) noFilters) ∈
    getOptions sampleUnicode codeUnitCompare sampleRecords
      (setField K_il (str [0x61]) noFilters) K_il.
Proof.
  assert (K_il ≠ K_mahalle) as H1 by discriminate.
  assert (field K_il (setField K_il (str [0x61]) noFilters) ≠ []) as H2
    by discriminate.
  assert (filteredData sampleUnicode sampleRecords
            (setField K_il (str [0x61]) noFilters) ≠ [])
    as H3.
  { intros H. vm_compute in H. discriminate H. }
  exact (conj H1 (conj H2 (conj H3
    (selected_value_offered sampleUnicode codeUnitCompare sampleRecords
       (setField K_il (str [0x61]) noFilters) K_il H1 H2 H3)))).
Defined.

(** The queries "KÖY" and "koy" have the same normal form, and find the
    same three of the four sample records. *)
Lemma search_by_normal_form_witness :
  normalizeTurkish sampleUnicode str_KOY_uml = normalizeTurkish sampleUnicode str_koy ∧
  searchedData sampleUnicode sampleRecords str_KOY_uml =
  searchedData sampleUnicode sampleRecords str_koy.
Proof.
  split; [reflexivity|].
  apply (search_by_normal_form sampleUnicode sampleRecords str_KOY_uml str_koy).
  reflexivity.
Defined.


Lemma normalizeTurkish_fixed_points_witness :
  UnicodeFacts sampleUnicode ∧
  (normalizeTurkish sampleUnicode str_koy = str_koy ↔
   toLocaleLowerCase_tr sampleUnicode str_koy = str_koy ∧
   Forall (λ c, c ∉ [U.g_breve; U.u_uml; U.s_ced; U.i_dotless; U.o_uml; U.c_ced])
     str_koy).
Proof.
  exact (conj sampleUnicode_facts
           (normalizeTurkish_fixed_points sampleUnicode sampleUnicode_facts str_koy)).
Defined.

Lemma loaded_well_typed_witness :
  (JNull ∉ sampleItems) ∧
  (Forall (λ rec, ∀ k, isString (sfield k rec))
     (loadedData (fetchData sampleRecords
                    (Response true (Some (JArray sampleItems))))) ↔
   Forall (λ item, ∀ k v, readField item k = Some v → truthy v = true → isString v)
     sampleItems).
Proof.
  assert (JNull ∉ sampleItems) as Hn.
  { intros H. unfold sampleItems in H.
    repeat (apply elem_of_cons in H as [H|H]; [discriminate H|]).
    by apply elem_of_nil in H. }
  exact (conj Hn (loaded_well_typed sampleRecords sampleItems Hn)).
Defined.

(** The search on the sample records: both spellings of the query find
    the records whose locality is "köy" or "KÖY". *)
Example sample_search :
  searchedData sampleUnicode sampleRecords str_KOY_uml =
    [sample_b; sample_a; sample_b] ∧
  searchedData sampleUnicode sampleRecords str_koy =
    [sample_b; sample_a; sample_b] ∧
  normalizeTurkish sampleUnicode str_KOY_uml = str_koy.
Proof. vm_compute. repeat split. Qed.

(** The loader on the sample items: the number is kept, the missing keys
    become empty strings, and a [null] item sends the application to the
    sample records. *)
Example sample_load :
  loadedData (fetchData sampleRecords (Response true (Some (JArray sampleItems)))) =
    [ofTyped sample_a;
     mkSanitized (JNumber 5%float) (JString []) (JString []) (JString [])
       (JString [])] ∧
  fetchData sampleRecords (Response true (Some (JArray (JNull :: sampleItems)))) =
    mkLoaded (map ofTyped sampleRecords) true false ∧
  fetchData sampleRecords (Response true (Some (JObject []))) =
    mkLoaded (map ofTyped sampleRecords) true false.
Proof. vm_compute. repeat split. Qed.
